(** * cpyp: the Pitman-Yor Chinese restaurant process of [cpyp/crp.h]

    A shallow embedding of the class template [cpyp::crp<Dish, DishHash>]
    and of the collaborators it calls, followed by the properties of the
    restaurant that the specification states.

    Conventions of the embedding.
    - An [unsigned] has 32 bits: it is an [N] below [2^32], and [++] and
      [--] are written out with their wrap-around ([uincr], [udecr]).
    - A finite [double] is an exact rational ([Q]); rounding is not
      modelled.  The discount and the strength that a restaurant stores
      are finite.  A [double] that may be NaN (the prior parameters, whose
      NaN value is the "no prior" marker) is an [option Q]; a computation
      that can leave the finite range (a division by zero, a logarithm of
      zero) returns an [option].  The log-likelihood, which goes through
      [log] and [lgamma], is a real number ([R]).
    - [prob] rounds the result of every arithmetic operation with a
      function [rnd], of which the properties ask what rounding to nearest
      gives as long as nothing overflows ([rounding]); [no_rounding] is
      exact arithmetic.
    - What [check_hyperparameters] and [prob] do with a hyperparameter
      that is an infinity or NaN is stated apart, over the type [xdouble]
      of the finite doubles, the two infinities and NaN
      ([check_hyperparameters_x], [prob_x]).
    - Of the function templates, the instances with [F = double] are
      embedded.
    - [std::unordered_map<Dish, crp_table_manager>] is a [gmap]; the
      [std::map<unsigned, unsigned>] histogram of a table manager, whose
      iteration order matters, is an association list kept in key order.
    - A random engine is the script of the uniform draws it will deliver;
      every stochastic operation takes the engine and returns the rest.
    - [assert] and [abort] end a call: a call returns an [outcome], either
      the value returned or the state at which the call stopped. *)

From Stdlib Require Import Reals Lra ClassicalEpsilon.
From Stdlib Require Import ZArith NArith QArith Qround Qreals Lia Lqa.
From stdpp Require Import gmap.

Local Open Scope N_scope.

(** ** Unsigned counters *)

Definition UINT_MAX : N := 4294967295.

Definition wrap (n : N) : N := n mod 4294967296.

(** [++n] on an [unsigned]. *)
Definition uincr (n : N) : N := wrap (n + 1).

(** [--n] on an [unsigned]. *)
Definition udecr (n : N) : N := wrap (n + UINT_MAX).

(** The conversion [unsigned -> double], which is exact. *)
Definition to_double (n : N) : Q := inject_Z (Z.of_N n).

Definition Qlt_bool (x y : Q) : bool := negb (Qle_bool y x).

(** ** The random source ([random.h]) *)

(** Modelled from the spec: the random engine of [random.h], which "supplies
    uniform reals in [0,1) and a weighted-binary-choice primitive" and is
    "injectable/swappable for deterministic test doubles".  An engine is the
    list of the draws still to come; a draw is reduced to its fractional
    part, so every variate lies in [0,1), and an exhausted engine keeps
    delivering [0]. *)
Definition Engine : Type := list Q.

(** Modelled from the spec: the reduction of a draw to [0,1), its
    fractional part. *)
Definition frac01 (q : Q) : Q := (q - inject_Z (Qfloor q))%Q.

(** Modelled from the spec: [sample_uniform01] of [random.h], one uniform
    variate of [0,1) taken from the engine. *)
Definition sample_uniform01 (eng : Engine) : Q * Engine :=
  match eng with
  | [] => (0%Q, [])
  | u :: eng' => (frac01 u, eng')
  end.

(** Modelled from the spec: [sample_bernoulli a b eng] of [random.h], the
    weighted binary choice between two unnormalised weights; [true] selects
    the second weight [b], with probability [b / (a + b)]. *)
Definition sample_bernoulli (a b : Q) (eng : Engine) : bool * Engine :=
  let '(u, eng') := sample_uniform01 eng in
  (Qlt_bool a (u * (a + b)), eng').

(** ** The per-dish table histogram ([crp_table_manager.h]) *)

(** Modelled from the spec: the [crp_table_manager] of
    [crp_table_manager.h], the "per-dish structure tracking table count and
    customer count and the occupancy-size histogram".  [h] lists the bins
    [(occupancySize, countOfTablesWithThatSize)] in increasing size. *)
Record crp_table_manager : Type := mk_table_manager {
  customers : N;
  tables : N;
  h : list (N * N)
}.

(** Modelled from the spec: the default-constructed [crp_table_manager],
    without customers and without tables. *)
Definition new_table_manager : crp_table_manager :=
  {| customers := 0; tables := 0; h := [] |}.

(** Modelled from the spec: [++h[k]] on the histogram of
    [crp_table_manager.h]; the bin of size [k] gains a table, and a missing
    bin is created. *)
Fixpoint h_incr (k : N) (bins : list (N * N)) : list (N * N) :=
  match bins with
  | [] => [(k, 1)]
  | (k', c) :: rest =>
      if k =? k' then (k', uincr c) :: rest
      else if k <? k' then (k, 1) :: (k', c) :: rest
      else (k', c) :: h_incr k rest
  end.

(** Modelled from the spec: [if (--h[k] == 0) h.erase(k)] on the
    histogram of [crp_table_manager.h]; the bin of size [k] loses a table
    and disappears when it was its last. *)
Fixpoint h_decr (k : N) (bins : list (N * N)) : list (N * N) :=
  match bins with
  | [] => []
  | (k', c) :: rest =>
      if k =? k' then (if udecr c =? 0 then rest else (k', udecr c) :: rest)
      else (k', c) :: h_decr k rest
  end.

(** Modelled from the spec: [createTable()] "adds one table with one
    customer". *)
Definition create_table (loc : crp_table_manager) : crp_table_manager :=
  {| customers := uincr (customers loc);
     tables := uincr (tables loc);
     h := h_incr 1 (h loc) |}.

(** Modelled from the spec: the choice of [shareTable], the bin hit by the
    weight [r] when every table of size [k] weighs [k - discount]; the bins
    are walked in order and [r] is decreased by the weight of each bin
    passed. *)
Fixpoint pick_share (discount r : Q) (bins : list (N * N)) : option N :=
  match bins with
  | [] => None
  | (k, c) :: rest =>
      let thresh := ((to_double k - discount) * to_double c)%Q in
      if Qlt_bool r thresh then Some k
      else pick_share discount (r - thresh)%Q rest
  end.

(** Modelled from the spec: [shareTable(discount, rng)] "selects one
    existing table weighted by occupancy - discount and adds one customer
    to it".  One uniform variate is drawn.  The walk always hits a bin of
    a consistent histogram ([pick_share_hits]); when it hits none the bins
    stay as they are. *)
Definition share_table (discount : Q) (eng : Engine) (loc : crp_table_manager)
  : crp_table_manager * Engine :=
  let z := (to_double (customers loc) - discount * to_double (tables loc))%Q in
  let '(u, eng') := sample_uniform01 eng in
  let bins :=
    match pick_share discount (z * u)%Q (h loc) with
    | Some cc => h_incr (uincr cc) (h_decr cc (h loc))
    | None => h loc
    end in
  ({| customers := uincr (customers loc); tables := tables loc; h := bins |},
   eng').

(** Modelled from the spec: the choice of [removeCustomer], the bin hit by
    the customer index [r] when every table of size [k] weighs [k]. *)
Fixpoint pick_remove (r : N) (bins : list (N * N)) : option N :=
  match bins with
  | [] => None
  | (k, c) :: rest =>
      let thresh := k * c in
      if r <? thresh then Some k else pick_remove (r - thresh) rest
  end.

(** Modelled from the spec: [removeCustomer(rng)] "selects and removes one
    customer weighted by occupancy, closing the table if it becomes empty,
    signaling whether a table closed": the result is [-1] when a table was
    closed and [0] otherwise.  One uniform variate is drawn.  The walk
    always hits a bin of a consistent histogram ([pick_remove_hits]); when
    it hits none the bins stay as they are. *)
Definition remove_customer (eng : Engine) (loc : crp_table_manager)
  : Z * crp_table_manager * Engine :=
  let '(u, eng') := sample_uniform01 eng in
  let r := Z.to_N (Qfloor (u * to_double (customers loc))) in
  match pick_remove r (h loc) with
  | Some tc =>
      let bins := h_decr tc (h loc) in
      if tc =? 1 then
        ((-1)%Z,
         {| customers := udecr (customers loc);
            tables := udecr (tables loc);
            h := bins |},
         eng')
      else
        (0%Z,
         {| customers := udecr (customers loc);
            tables := tables loc;
            h := h_incr (tc - 1) bins |},
         eng')
  | None =>
      (0%Z,
       {| customers := udecr (customers loc);
          tables := tables loc;
          h := h loc |},
       eng')
  end.

(** ** Consistency of a table histogram *)

(** The customers and the tables that the bins account for. *)
Definition bins_customers (bins : list (N * N)) : N :=
  foldr (fun b acc => fst b * snd b + acc) 0 bins.

Definition bins_tables (bins : list (N * N)) : N :=
  foldr (fun b acc => snd b + acc) 0 bins.

(** Every bin has a positive size and holds at least one table. *)
Definition bins_pos (bins : list (N * N)) : Prop :=
  Forall (fun b => 1 <= fst b /\ 1 <= snd b) bins.

(** A table manager is consistent when its two counters are the totals of
    its bins. *)
Record hist_ok (loc : crp_table_manager) : Prop := mk_hist_ok {
  hist_customers : customers loc = bins_customers (h loc);
  hist_tables : tables loc = bins_tables (h loc);
  hist_pos : bins_pos (h loc)
}.

(** [k] is the size of one of the bins. *)
Definition has_bin (k : N) (bins : list (N * N)) : Prop :=
  Exists (fun b => fst b = k) bins.

(** The total weight of the bins when a table of size [k] weighs
    [k - discount]. *)
Definition bins_weight (discount : Q) (bins : list (N * N)) : Q :=
  foldr (fun b acc => ((to_double (fst b) - discount) * to_double (snd b) + acc)%Q)
        0%Q bins.

(** ** Real-valued library functions ([<cmath>]) *)

(** A [double] that is looked at up to finiteness: [Some x] is the finite
    value [x], [None] is an infinity or NaN.  The sum, the difference and
    the product of two doubles are finite only when both are. *)
Definition double : Type := option R.

Definition fadd (x y : double) : double :=
  match x, y with Some a, Some b => Some (a + b)%R | _, _ => None end.

Definition fsub (x y : double) : double :=
  match x, y with Some a, Some b => Some (a - b)%R | _, _ => None end.

Definition fmul (x y : double) : double :=
  match x, y with Some a, Some b => Some (a * b)%R | _, _ => None end.

(** A quotient; dividing by zero gives an infinity or NaN. *)
Definition fquot (x y : double) : double :=
  match x, y with
  | Some a, Some b => if Req_dec_T b 0 then None else Some (a / b)%R
  | _, _ => None
  end.

Declare Scope double_scope.
Delimit Scope double_scope with D.
Bind Scope double_scope with double.
Infix "+" := fadd : double_scope.
Infix "-" := fsub : double_scope.
Infix "*" := fmul : double_scope.
Infix "/" := fquot : double_scope.

Definition of_R (x : R) : double := Some x.
Definition of_Q (q : Q) : double := Some (Q2R q).
Definition of_N (n : N) : double := Some (IZR (Z.of_N n)).

(** A prior parameter, NaN when the prior is absent. *)
Definition of_param (p : option Q) : double :=
  match p with Some q => Some (Q2R q) | None => None end.

(** [std::log]: finite on the positive numbers only ([log(0)] is
    [-infinity], the logarithm of a negative number is NaN). *)
Definition flog (x : double) : double :=
  match x with
  | Some a => if Rlt_dec 0 a then Some (ln a) else None
  | None => None
  end.

(** The limit of a sequence of reals, when it has one. *)
Definition seq_limit (u : nat -> R) : double :=
  match excluded_middle_informative (exists l, Un_cv u l) with
  | left Hcv => Some (proj1_sig (constructive_indefinite_description _ Hcv))
  | right _ => None
  end.

(** The terms of Gauss's limit for [ln |Gamma x|]:
    [ln n! + x ln n - sum_{k = 0..n} ln |x + k|]. *)
Definition gauss_term (x : R) (n : nat) : R :=
  (ln (INR (fact n)) + x * ln (INR n)
   - sum_f_R0 (fun k => ln (Rabs (x + INR k))) n)%R.

(** [lgamma], the logarithm of the absolute value of the Gamma function;
    it is infinite at zero and at the negative integers. *)
Definition lgamma (x : R) : double :=
  match excluded_middle_informative (exists k : nat, x = (- INR k)%R) with
  | left _ => None
  | right _ => seq_limit (gauss_term x)
  end.

Definition flgamma (x : double) : double :=
  match x with Some a => lgamma a | None => None end.

(** ** The density helpers ([m.h]) *)

(** Modelled from the spec: [Md::log_beta_density(x, alpha, beta)] of
    [m.h], the "standard closed form" of the logarithm of the Beta density,
    [(alpha-1) ln x + (beta-1) ln (1-x)
     + lgamma(alpha+beta) - lgamma(alpha) - lgamma(beta)]. *)
Definition log_beta_density (x alpha beta : double) : double :=
  ((alpha - of_R 1) * flog x + (beta - of_R 1) * flog (of_R 1 - x)
   + flgamma (alpha + beta) - flgamma alpha - flgamma beta)%D.

(** Modelled from the spec: [Md::log_gamma_density(x, shape, rate)] of
    [m.h], the "standard closed form" of the logarithm of the Gamma
    density, [shape ln rate - lgamma(shape) + (shape-1) ln x - rate x]. *)
Definition log_gamma_density (x shape rate : double) : double :=
  (shape * flog rate - flgamma shape + (shape - of_R 1) * flog x
   - rate * x)%D.

(** ** The rounding of double arithmetic *)

(** Arithmetic without rounding. *)
Definition no_rounding (x : Q) : Q := x.

(** A number that is a double: rounding gives it back. *)
Definition representable (rnd : Q -> Q) (x : Q) : Prop := (rnd x == x)%Q.

(** What is asked of the rounding [rnd] of a result to a double, and what
    rounding to nearest gives as long as the result does not overflow: it
    is monotone, the value of an [unsigned] is a double, and the sum of two
    doubles is rounded to zero only when it is zero. *)
Record rounding (rnd : Q -> Q) : Prop := mk_rounding {
  rnd_proper : forall x y, (x == y)%Q -> (rnd x == rnd y)%Q;
  rnd_mono : forall x y, (x <= y)%Q -> (rnd x <= rnd y)%Q;
  rnd_unsigned : forall n : N, n <= UINT_MAX -> representable rnd (to_double n);
  rnd_sum :
    forall x y, representable rnd x -> representable rnd y ->
                (rnd (x + y) == 0)%Q -> (x + y == 0)%Q
}.

(** A rounding for the examples: down to a multiple of [1/1024]. *)
Definition coarse_rounding (x : Q) : Q :=
  (inject_Z (Qfloor (x * 1024)) / 1024)%Q.

(** ** Doubles that are not finite *)

(** A [double]: a finite number, [+inf], [-inf] or NaN. *)
Inductive xdouble : Type :=
| XFin (q : Q)
| XPInf
| XNInf
| XNaN.

(** The infinity of the given sign. *)
Definition xinf (positive : bool) : xdouble :=
  if positive then XPInf else XNInf.

(** [-x] *)
Definition xneg (x : xdouble) : xdouble :=
  match x with
  | XFin q => XFin (- q)
  | XPInf => XNInf
  | XNInf => XPInf
  | XNaN => XNaN
  end.

(** [x < y], which is false as soon as an operand is NaN. *)
Definition xlt (x y : xdouble) : bool :=
  match x, y with
  | XNaN, _ | _, XNaN => false
  | XFin a, XFin b => Qlt_bool a b
  | XPInf, _ | _, XNInf => false
  | XNInf, _ | _, XPInf => true
  end.

(** [x <= y], which is false as soon as an operand is NaN. *)
Definition xle (x y : xdouble) : bool :=
  match x, y with
  | XNaN, _ | _, XNaN => false
  | XFin a, XFin b => Qle_bool a b
  | XNInf, _ | _, XPInf => true
  | XPInf, _ | _, XNInf => false
  end.

(** [x + y]: the sum of two opposite infinities is NaN. *)
Definition xadd (x y : xdouble) : xdouble :=
  match x, y with
  | XNaN, _ | _, XNaN => XNaN
  | XFin a, XFin b => XFin (a + b)
  | XPInf, XNInf | XNInf, XPInf => XNaN
  | XPInf, _ | _, XPInf => XPInf
  | XNInf, _ | _, XNInf => XNInf
  end.

(** [x * y]: the product of an infinity and a zero is NaN. *)
Definition xmul (x y : xdouble) : xdouble :=
  match x, y with
  | XNaN, _ | _, XNaN => XNaN
  | XFin a, XFin b => XFin (a * b)
  | XFin a, XPInf | XPInf, XFin a =>
      if Qeq_bool a 0 then XNaN else xinf (Qlt_bool 0 a)
  | XFin a, XNInf | XNInf, XFin a =>
      if Qeq_bool a 0 then XNaN else xinf (Qlt_bool a 0)
  | XPInf, XPInf | XNInf, XNInf => XPInf
  | XPInf, XNInf | XNInf, XPInf => XNInf
  end.

(** [x / y] for a divisor that is not [-0]: [0 / 0] and the quotient of two
    infinities are NaN, a number that is not zero divided by [+0] is an
    infinity of its sign, and a finite number divided by an infinity is
    zero. *)
Definition xdiv (x y : xdouble) : xdouble :=
  match x, y with
  | XNaN, _ | _, XNaN => XNaN
  | XFin a, XFin b =>
      if Qeq_bool b 0 then
        if Qeq_bool a 0 then XNaN else xinf (Qlt_bool 0 a)
      else XFin (a / b)
  | XFin _, XPInf | XFin _, XNInf => XFin 0
  | XPInf, XFin b => if Qeq_bool b 0 then XPInf else xinf (Qlt_bool 0 b)
  | XNInf, XFin b => if Qeq_bool b 0 then XNInf else xinf (Qlt_bool b 0)
  | _, _ => XNaN
  end.

(** [check_hyperparameters] on a discount and a strength that are any
    doubles: [true] when the call returns and [false] when it aborts.
    The three comparisons of the function are false on NaN. *)
Definition check_hyperparameters_x (discount strength : xdouble) : bool :=
  if xlt discount (XFin 0) || xle (XFin 1) discount then false
  else if xle strength (xneg discount) then false
  else true.

(** ** The restaurant: [template <typename Dish, typename DishHash> class crp] *)

Section Restaurant.

Context {Dish : Type} `{Countable Dish}.

(** The data members of [crp], in the order of the class.  The prior
    parameters are [None] where the class stores NaN. *)
Record crp : Type := mk_crp {
  num_tables_ : N;
  num_customers_ : N;
  dish_locs_ : gmap Dish crp_table_manager;
  discount_ : Q;
  strength_ : Q;
  discount_prior_strength_ : option Q;
  discount_prior_beta_ : option Q;
  strength_prior_shape_ : option Q;
  strength_prior_rate_ : option Q
}.

(** The result of a call that may stop at an [assert] or an [abort]:
    [Aborted st] carries the restaurant as it is when the call stops. *)
Inductive outcome (A : Type) : Type :=
| Returned (a : A)
| Aborted (st : crp).

Arguments Returned {A} a.
Arguments Aborted {A} st.

(** The restaurant with new counters and a new dish map, the
    hyperparameters and priors kept. *)
Definition with_counts (st : crp) (nt nc : N)
  (locs : gmap Dish crp_table_manager) : crp :=
  {| num_tables_ := nt;
     num_customers_ := nc;
     dish_locs_ := locs;
     discount_ := discount_ st;
     strength_ := strength_ st;
     discount_prior_strength_ := discount_prior_strength_ st;
     discount_prior_beta_ := discount_prior_beta_ st;
     strength_prior_shape_ := strength_prior_shape_ st;
     strength_prior_rate_ := strength_prior_rate_ st |}.

(** The restaurant with new hyperparameters. *)
Definition with_hyperparameters (st : crp) (d s : Q) : crp :=
  {| num_tables_ := num_tables_ st;
     num_customers_ := num_customers_ st;
     dish_locs_ := dish_locs_ st;
     discount_ := d;
     strength_ := s;
     discount_prior_strength_ := discount_prior_strength_ st;
     discount_prior_beta_ := discount_prior_beta_ st;
     strength_prior_shape_ := strength_prior_shape_ st;
     strength_prior_rate_ := strength_prior_rate_ st |}.

(** [check_hyperparameters]: aborts on a discount outside [0,1) and on a
    strength not above [-discount].  The hyperparameters of the record are
    finite; [check_hyperparameters_x] is the same check on any doubles. *)
Definition check_hyperparameters (st : crp) : outcome crp :=
  if Qlt_bool (discount_ st) 0 || Qle_bool 1 (discount_ st) then Aborted st
  else if Qle_bool (strength_ st) (- discount_ st) then Aborted st
  else Returned st.

(** [crp(double disc, double strength)]: no priors. *)
Definition crp_new (disc strength : Q) : outcome crp :=
  check_hyperparameters
    {| num_tables_ := 0;
       num_customers_ := 0;
       dish_locs_ := ∅;
       discount_ := disc;
       strength_ := strength;
       discount_prior_strength_ := None;
       discount_prior_beta_ := None;
       strength_prior_shape_ := None;
       strength_prior_rate_ := None |}.

(** [crp(d_strength, d_beta, c_shape, c_rate, d = 0.8, c = 1.0)]. *)
Definition crp_new_priors (d_strength d_beta c_shape c_rate : option Q)
  (d c : Q) : outcome crp :=
  check_hyperparameters
    {| num_tables_ := 0;
       num_customers_ := 0;
       dish_locs_ := ∅;
       discount_ := d;
       strength_ := c;
       discount_prior_strength_ := d_strength;
       discount_prior_beta_ := d_beta;
       strength_prior_shape_ := c_shape;
       strength_prior_rate_ := c_rate |}.

Definition discount (st : crp) : Q := discount_ st.
Definition strength (st : crp) : Q := strength_ st.

Definition set_hyperparameters (d s : Q) (st : crp) : outcome crp :=
  check_hyperparameters (with_hyperparameters st d s).

Definition set_discount (d : Q) (st : crp) : outcome crp :=
  check_hyperparameters (with_hyperparameters st d (strength_ st)).

Definition set_strength (a : Q) (st : crp) : outcome crp :=
  check_hyperparameters (with_hyperparameters st (discount_ st) a).

(** [!std::isnan(discount_prior_strength_)] *)
Definition has_discount_prior (st : crp) : bool :=
  match discount_prior_strength_ st with Some _ => true | None => false end.

(** [!std::isnan(strength_prior_shape_)] *)
Definition has_strength_prior (st : crp) : bool :=
  match strength_prior_shape_ st with Some _ => true | None => false end.

Definition clear (st : crp) : crp := with_counts st 0 0 ∅.

Definition num_tables (st : crp) : N := num_tables_ st.

(** [num_tables(const Dish&)] *)
Definition num_tables_dish (dish : Dish) (st : crp) : N :=
  match dish_locs_ st !! dish with
  | None => 0
  | Some loc => tables loc
  end.

Definition num_customers (st : crp) : N := num_customers_ st.

(** [num_customers(const Dish&)] has no embedding: its last statement,
    [return it->num_customers();], asks the element of the map, a
    [std::pair<const Dish, crp_table_manager>], for a member
    [num_customers], which a pair does not have ([num_tables(const Dish&)]
    above goes through [it->second]).  The member function is therefore
    ill-formed as soon as it is instantiated, and no call of it yields a
    value. *)

(** [dish_locs_[dish]]: the entry of the dish, default-constructed and
    inserted into the map when the dish has none. *)
Definition subscript (dish : Dish) (locs : gmap Dish crp_table_manager)
  : crp_table_manager * gmap Dish crp_table_manager :=
  match locs !! dish with
  | Some loc => (loc, locs)
  | None => (new_table_manager, <[dish := new_table_manager]> locs)
  end.

(** [increment(dish, p0, eng)]: returns [1] when a table was opened and
    [0] otherwise, with the new restaurant and the rest of the engine. *)
Definition increment (dish : Dish) (p0 : Q) (eng : Engine) (st : crp)
  : Z * crp * Engine :=
  let '(loc, locs) := subscript dish (dish_locs_ st) in
  let '(share, eng1) :=
    if negb (customers loc =? 0) then
      let p_empty :=
        ((strength_ st + to_double (num_tables_ st) * discount_ st) * p0)%Q in
      let p_share :=
        (to_double (customers loc) - to_double (tables loc) * discount_ st)%Q in
      sample_bernoulli p_empty p_share eng
    else (false, eng) in
  if share then
    let '(loc', eng2) := share_table (discount_ st) eng1 loc in
    (0%Z,
     with_counts st (num_tables_ st) (uincr (num_customers_ st))
       (<[dish := loc']> locs),
     eng2)
  else
    (1%Z,
     with_counts st (uincr (num_tables_ st)) (uincr (num_customers_ st))
       (<[dish := create_table loc]> locs),
     eng1).

(** [decrement(dish, eng)]: returns [-1] when a table was closed and [0]
    otherwise.  The entry is looked up with [dish_locs_[dish]] before the
    assertion on its customer count is evaluated. *)
Definition decrement (dish : Dish) (eng : Engine) (st : crp)
  : outcome (Z * crp * Engine) :=
  let '(loc, locs) := subscript dish (dish_locs_ st) in
  if customers loc =? 0 then
    Aborted (with_counts st (num_tables_ st) (num_customers_ st) locs)
  else if customers loc =? 1 then
    Returned
      ((-1)%Z,
       with_counts st (udecr (num_tables_ st)) (udecr (num_customers_ st))
         (delete dish locs),
       eng)
  else
    let '(delta, loc', eng') := remove_customer eng loc in
    Returned
      (delta,
       with_counts st
         (if (delta =? 0)%Z then num_tables_ st else udecr (num_tables_ st))
         (udecr (num_customers_ st))
         (<[dish := loc']> locs),
       eng').

(** A quotient of two doubles that is a number, rounded: dividing by zero
    gives an infinity or NaN. *)
Definition fdiv (rnd : Q -> Q) (x y : Q) : option Q :=
  if Qeq_bool y 0 then None else Some (rnd (x / y))%Q.

(** [prob(dish, p0)] with [F = double], a [const] member: it reads the
    restaurant and returns a weight.  The result of every operation is
    rounded by [rnd]; the conversion of an [unsigned] is exact. *)
Definition prob (rnd : Q -> Q) (dish : Dish) (p0 : Q) (st : crp) : option Q :=
  let r :=
    rnd (rnd (to_double (num_tables_ st) * discount_ st) + strength_ st)%Q in
  let total := rnd (to_double (num_customers_ st) + strength_ st)%Q in
  match dish_locs_ st !! dish with
  | None => fdiv rnd (rnd (r * p0)%Q) total
  | Some loc =>
      fdiv rnd
        (rnd (rnd (to_double (customers loc)
                   - rnd (discount_ st * to_double (tables loc)))
              + rnd (r * p0))%Q)
        total
  end.

(** The conversion [double -> int], which drops the fraction. *)
Definition to_int (q : Q) : Z := Z.quot (Qnum q) (Zpos (Qden q)).

(** [prob(dish, p0)] with [F = int]: every [F(...)] drops the fraction of
    a double, and the quotient is the one of two [int], which drops the
    fraction too; a division by zero yields no value.  The values are
    taken to stay in the range of [int]. *)
Definition prob_int (dish : Dish) (p0 : Z) (st : crp) : option Z :=
  let r :=
    to_int (to_double (num_tables_ st) * discount_ st + strength_ st) in
  let total := to_int (to_double (num_customers_ st) + strength_ st) in
  match dish_locs_ st !! dish with
  | None => if (total =? 0)%Z then None else Some (Z.quot (r * p0) total)
  | Some loc =>
      if (total =? 0)%Z then None
      else
        Some (Z.quot
                (to_int (to_double (customers loc)
                         - discount_ st * to_double (tables loc))
                 + r * p0)
                total)
  end.

(** [prob(dish, p0)] on a restaurant whose strength is any double, in
    arithmetic without rounding: the
    value returned when [strength_] holds [strength], the rest of the
    restaurant being [st].  The divisor [num_customers_ + strength_] is a
    sum with the conversion of an [unsigned], which is never [-0]: when it
    is zero it is [+0]. *)
Definition prob_x (dish : Dish) (p0 : Q) (strength : xdouble) (st : crp)
  : xdouble :=
  let r := xadd (XFin (to_double (num_tables_ st) * discount_ st)) strength in
  let total := xadd (XFin (to_double (num_customers_ st))) strength in
  match dish_locs_ st !! dish with
  | None => xdiv (xmul r (XFin p0)) total
  | Some loc =>
      xdiv (xadd (XFin (to_double (customers loc)
                        - discount_ st * to_double (tables loc)))
                 (xmul r (XFin p0)))
           total
  end.

(** ** The data model of the specification *)

Implicit Types (st : crp) (locs : gmap Dish crp_table_manager).
Implicit Types (loc : crp_table_manager) (dish : Dish).

(** The two counters of the restaurant hold values of the type
    [unsigned]. *)
Definition counters_in_range st : Prop :=
  num_tables_ st <= UINT_MAX /\ num_customers_ st <= UINT_MAX.

(** The customers seated for a dish: the count of its entry, and [0] for a
    dish without entry. *)
Definition seated dish st : N :=
  match dish_locs_ st !! dish with
  | None => 0
  | Some loc => customers loc
  end.

(** The table manager that [dish_locs_[dish]] designates: the entry of the
    dish, and a default-constructed one for a dish without entry. *)
Definition entry dish st : crp_table_manager :=
  default new_table_manager (dish_locs_ st !! dish).

(** The weight that the predictive formula of the specification gives:
    with [r = numTables * discount + strength], it is
    [r * p0 / (numCustomers + strength)] for a dish that is not in
    [dishState] and
    [(customers(dish) - discount * tables(dish) + r * p0) /
     (numCustomers + strength)] otherwise. *)
Definition predictive_weight dish (p0 : Q) st : Q :=
  let r := (to_double (num_tables_ st) * discount_ st + strength_ st)%Q in
  match dish_locs_ st !! dish with
  | None => (r * p0 / (to_double (num_customers_ st) + strength_ st))%Q
  | Some loc =>
      ((to_double (customers loc) - discount_ st * to_double (tables loc)
        + r * p0)
       / (to_double (num_customers_ st) + strength_ st))%Q
  end.

(** The sum of a per-dish count over the dishes of the map. *)
Definition sum_over (f : crp_table_manager -> N) locs : N :=
  map_fold (fun _ loc acc => f loc + acc) 0 locs.

Definition sum_customers locs : N := sum_over customers locs.
Definition sum_tables locs : N := sum_over tables locs.

(** The invariants of section 3 of the specification:
    1. [numCustomers] is the sum of the per-dish customer counts;
    2. [numTables] is the sum of the per-dish table counts;
    3. [0 <= discount < 1] and [strength > -discount];
    4. a dish of the map has at least one customer;
    5. a dish has at least one table when it has a customer, and no more
       tables than customers. *)
Record invariants st : Prop := mk_invariants {
  inv_customers : num_customers_ st = sum_customers (dish_locs_ st);
  inv_tables : num_tables_ st = sum_tables (dish_locs_ st);
  inv_discount : (0 <= discount_ st)%Q /\ (discount_ st < 1)%Q;
  inv_strength : (- discount_ st < strength_ st)%Q;
  inv_present :
    map_Forall (fun _ loc => 1 <= customers loc) (dish_locs_ st);
  inv_occupancy :
    map_Forall (fun _ loc => (1 <= customers loc -> 1 <= tables loc) /\
                             tables loc <= customers loc) (dish_locs_ st)
}.

(** The invariant carried along a run: the counters are the sums, every
    dish of the map has a customer and a consistent histogram, the discount
    is valid and the customer counter is an [unsigned]. *)
Record consistent st : Prop := mk_consistent {
  cons_customers : num_customers_ st = sum_customers (dish_locs_ st);
  cons_tables : num_tables_ st = sum_tables (dish_locs_ st);
  cons_discount : (0 <= discount_ st)%Q /\ (discount_ st < 1)%Q;
  cons_strength : (- discount_ st < strength_ st)%Q;
  cons_dishes :
    map_Forall (fun _ loc => hist_ok loc /\ 1 <= customers loc) (dish_locs_ st);
  cons_range : num_customers_ st <= UINT_MAX
}.

(** The restaurants that [n] calls of [increment], mixed with any number
    of calls of [decrement] that return and of [clear], produce from a
    freshly constructed restaurant. *)
Inductive reachable_in : N -> crp -> Prop :=
| reach_new disc str st :
    crp_new disc str = Returned st -> reachable_in 0 st
| reach_new_priors d_strength d_beta c_shape c_rate d c st :
    crp_new_priors d_strength d_beta c_shape c_rate d c = Returned st ->
    reachable_in 0 st
| reach_increment n st dish p0 eng :
    reachable_in n st -> reachable_in (n + 1) (increment dish p0 eng st).1.2
| reach_decrement n st dish eng delta st' eng' :
    reachable_in n st ->
    decrement dish eng st = Returned (delta, st', eng') ->
    reachable_in n st'
| reach_clear n st :
    reachable_in n st -> reachable_in n (clear st).

(** The restaurants that a sequence of calls of [increment], of
    [decrement] that return and of [clear] produces from a freshly
    constructed restaurant, when no [increment] of the sequence is called
    while [numCustomers] is [2^32 - 1]. *)
Inductive reachable_nowrap : crp -> Prop :=
| nowrap_new disc str st :
    crp_new disc str = Returned st -> reachable_nowrap st
| nowrap_new_priors d_strength d_beta c_shape c_rate d c st :
    crp_new_priors d_strength d_beta c_shape c_rate d c = Returned st ->
    reachable_nowrap st
| nowrap_increment st dish p0 eng :
    reachable_nowrap st -> num_customers_ st < UINT_MAX ->
    reachable_nowrap (increment dish p0 eng st).1.2
| nowrap_decrement st dish eng delta st' eng' :
    reachable_nowrap st ->
    decrement dish eng st = Returned (delta, st', eng') ->
    reachable_nowrap st'
| nowrap_clear st :
    reachable_nowrap st -> reachable_nowrap (clear st).

End Restaurant.

Arguments crp Dish {_ _}.
Arguments outcome Dish {_ _} A.
Arguments Returned {Dish _ _ A} a.
Arguments Aborted {Dish _ _ A} st.

(** ** The likelihood and the resampling of the hyperparameters *)

Section Likelihood.

Context {Dish : Type} `{Countable Dish}.

Implicit Types (st : crp Dish) (eng : Engine).

(** The first lines of [log_likelihood(discount, strength)]: the
    contribution of the priors that are present. *)
Definition hyperprior_lp (discount strength : Q) st : double :=
  let lp :=
    if has_discount_prior st then
      log_beta_density (of_Q discount)
        (of_param (discount_prior_strength_ st))
        (of_param (discount_prior_beta_ st))
    else of_R 0 in
  if has_strength_prior st then
    (lp + log_gamma_density (of_Q strength + of_Q discount)
            (of_param (strength_prior_shape_ st))
            (of_param (strength_prior_rate_ st)))%D
  else lp.

(** The terms that the two-parameter case adds for the tables of a dish:
    [(lgamma(bin.first - discount) - r) * bin.second] for each bin. *)
Definition bins_lp (discount r : double) (bins : list (N * N)) (lp : double)
  : double :=
  foldl (fun acc b =>
           (acc + (flgamma (of_N (fst b) - discount) - r) * of_N (snd b))%D)
        lp bins.

(** The rest of [log_likelihood(discount, strength)] when the restaurant
    is not empty. *)
Definition seating_lp (discount strength : Q) st (lp : double)
  : option double :=
  let d := of_Q discount in
  let s := of_Q strength in
  if Qlt_bool 0 discount then
    let r := flgamma (of_R 1 - d) in
    let lp1 :=
      if negb (Qeq_bool strength 0)
      then (lp + (flgamma s - flgamma (s / d)))%D else lp in
    let lp2 :=
      (lp1 + (of_R 0 - flgamma (s + of_N (num_customers_ st))
              + of_N (num_tables_ st) * flog d
              + flgamma (s / d + of_N (num_tables_ st))))%D in
    Some (map_fold (fun _ loc acc => bins_lp d r (h loc) acc) lp2
            (dish_locs_ st))
  else if Qeq_bool discount 0 then
    let lp1 :=
      (lp + (flgamma s + of_N (num_tables_ st) * flog s
             - flgamma (s + of_N (num_tables_ st))))%D in
    Some (map_fold (fun _ loc acc => (acc + flgamma (of_N (tables loc)))%D)
            lp1 (dish_locs_ st))
  else None.

(** [log_likelihood(discount, strength)], a [const] member.  The call
    stops at [assert(lp <= 0.0)] when the contribution of the priors is
    positive or NaN, at the assertion of the last [else] when the discount
    is negative, and at an [assert(std::isfinite(lp))] when the sum is not
    finite. *)
Definition log_likelihood_at (discount strength : Q) st : outcome Dish R :=
  match hyperprior_lp discount strength st with
  | None => Aborted st
  | Some lp0 =>
      if Rle_dec lp0 0 then
        let lp :=
          if negb (num_customers_ st =? 0)
          then seating_lp discount strength st (Some lp0)
          else Some (Some lp0) in
        match lp with
        | Some (Some v) => Returned v
        | _ => Aborted st
        end
      else Aborted st
  end.

(** [log_likelihood()] *)
Definition log_likelihood st : outcome Dish R :=
  log_likelihood_at (discount_ st) (strength_ st) st.

(** [std::numeric_limits<double>::min()], the least positive normal
    double, [2^-1022]. *)
Definition DBL_MIN : Q := 1 # (2 ^ 1022).

(** Modelled from the spec: the signature of [slice_sampler1d] of
    [slice_sampler.h], "sample(logDensity, initialValue, rng, lowerBound,
    upperBound, stepWidth, burnIn, maxIterations)"; the upper bound is
    [None] when it is infinite, and the call returns the value drawn and
    the rest of the engine, unless the log-density stops.  The sampler
    itself is a parameter of the resampling. *)
Definition slice_sampler : Type :=
  (Q -> outcome Dish R) -> Q -> Engine -> Q -> option Q -> Q -> N -> N ->
  outcome Dish (Q * Engine).

Variable slice_sampler1d : slice_sampler.

(** The resampling of the strength, with the lower bound of its support. *)
Definition resample_strength (lower : Q) (niterations : N)
  (x : crp Dish * Engine) : outcome Dish (crp Dish * Engine) :=
  let '(st, eng) := x in
  match slice_sampler1d
          (fun prop_s => log_likelihood_at (discount_ st) prop_s st)
          (strength_ st) eng lower None 0%Q
          niterations (wrap (100 * niterations)) with
  | Returned (s, eng') =>
      Returned (with_hyperparameters st (discount_ st) s, eng')
  | Aborted st' => Aborted st'
  end.

(** The resampling of the discount. *)
Definition resample_discount (niterations : N)
  (x : crp Dish * Engine) : outcome Dish (crp Dish * Engine) :=
  let '(st, eng) := x in
  let min_discount :=
    if Qlt_bool (strength_ st) 0 then (DBL_MIN - strength_ st)%Q
    else DBL_MIN in
  match slice_sampler1d
          (fun prop_d => log_likelihood_at prop_d (strength_ st) st)
          (discount_ st) eng min_discount (Some 1%Q) 0%Q
          niterations (wrap (100 * niterations)) with
  | Returned (d, eng') =>
      Returned (with_hyperparameters st d (strength_ st), eng')
  | Aborted st' => Aborted st'
  end.

(** One round of the loop of [resample_hyperparameters]. *)
Definition resample_round (niterations : N)
  (x : outcome Dish (crp Dish * Engine)) : outcome Dish (crp Dish * Engine) :=
  match x with
  | Aborted st' => Aborted st'
  | Returned (st, eng) =>
      let x1 :=
        if has_strength_prior st
        then resample_strength (- discount_ st + DBL_MIN)%Q niterations (st, eng)
        else Returned (st, eng) in
      match x1 with
      | Aborted st' => Aborted st'
      | Returned (st1, eng1) =>
          if has_discount_prior st1
          then resample_discount niterations (st1, eng1)
          else Returned (st1, eng1)
      end
  end.

(** [resample_hyperparameters(eng, nloop = 5, niterations = 10)] *)
Definition resample_hyperparameters eng (nloop niterations : N) st
  : outcome Dish (crp Dish * Engine) :=
  if negb (has_discount_prior st || has_strength_prior st) then Aborted st
  else if num_customers st =? 0 then Returned (st, eng)
  else
    match N.iter nloop (resample_round niterations) (Returned (st, eng)) with
    | Aborted st' => Aborted st'
    | Returned (st1, eng1) =>
        resample_strength (- discount_ st1)%Q niterations (st1, eng1)
    end.

End Likelihood.

(** ** Restaurants used in the examples, with the dishes numbered in [N] *)

(** [crp(0.0, 1.0)] as constructed. *)
Definition fresh_dp : crp N :=
  mk_crp 0 0 ∅ 0%Q 1%Q None None None None.

(** The restaurant [crp(0.0, 1.0)] with [k] customers of dish [0] at one
    table. *)
Definition one_table (k : N) : crp N :=
  mk_crp 1 k {[ 0 := {| customers := k; tables := 1; h := [(k, 1)] |} ]}
    0%Q 1%Q None None None None.

(** [crp(0.5, 0.0)] as constructed: empty, and of strength zero. *)
Definition fresh_zero_strength : crp N :=
  mk_crp 0 0 ∅ (1 # 2)%Q 0%Q None None None None.

(** [crp(0.5, 1.0)] as constructed. *)
Definition fresh_half : crp N :=
  mk_crp 0 0 ∅ (1 # 2)%Q 1%Q None None None None.

(** [crp(2, 2, 1, 1, 0.0, 1.0)] as constructed: a Beta(2,2) prior on a
    discount that is zero. *)
Definition fresh_beta_dp : crp N :=
  mk_crp 0 0 ∅ 0%Q 1%Q (Some 2%Q) (Some 2%Q) (Some 1%Q) (Some 1%Q).

(** [crp(1, 2, 1, 1, 0.125, 0.125)] as constructed: a Beta(1,2) prior on
    the discount [0.125] and a Gamma(1,1) prior on
    [strength + discount = 0.25]. *)
Definition fresh_dense_prior : crp N :=
  mk_crp 0 0 ∅ (1 # 8)%Q (1 # 8)%Q
    (Some 1%Q) (Some 2%Q) (Some 1%Q) (Some 1%Q).

(** [crp(1, 1, 1, 1)] as constructed, with the default discount [0.8] and
    strength [1.0]. *)
Definition fresh_default : crp N :=
  mk_crp 0 0 ∅ (4 # 5)%Q 1%Q (Some 1%Q) (Some 1%Q) (Some 1%Q) (Some 1%Q).

(** A slice sampler for the examples, which gives back the initial value
    and leaves the engine as it is. *)
Definition still_sampler : slice_sampler (Dish := N) :=
  fun _ x eng _ _ _ _ _ => Returned (x, eng).

(** ** The remaining members of the class *)

Section Members.

Context {Dish : Type} `{Countable Dish}.

Implicit Types (st : crp Dish) (dish : Dish).

(** The condition that [check_hyperparameters] accepts. *)
Definition valid_hyperparameters (d s : Q) : Prop :=
  (0 <= d)%Q /\ (d < 1)%Q /\ (- d < s)%Q.

(** [begin()] .. [end()]: the traversal of the pairs of a dish and its
    table manager, in the order of the map. *)
Definition dishes st : list (Dish * crp_table_manager) :=
  map_to_list (dish_locs_ st).

(** [a.swap(b)]: the restaurants [a] and [b] after the call, every data
    member exchanged. *)
Definition swap (a b : crp Dish) : crp Dish * crp Dish :=
  ({| num_tables_ := num_tables_ b;
      num_customers_ := num_customers_ b;
      dish_locs_ := dish_locs_ b;
      discount_ := discount_ b;
      strength_ := strength_ b;
      discount_prior_strength_ := discount_prior_strength_ b;
      discount_prior_beta_ := discount_prior_beta_ b;
      strength_prior_shape_ := strength_prior_shape_ b;
      strength_prior_rate_ := strength_prior_rate_ b |},
   {| num_tables_ := num_tables_ a;
      num_customers_ := num_customers_ a;
      dish_locs_ := dish_locs_ a;
      discount_ := discount_ a;
      strength_ := strength_ a;
      discount_prior_strength_ := discount_prior_strength_ a;
      discount_prior_beta_ := discount_prior_beta_ a;
      strength_prior_shape_ := strength_prior_shape_ a;
      strength_prior_rate_ := strength_prior_rate_ a |}).

(** Two restaurants with the same seating and the same priors: they
    differ at most in the discount and the strength. *)
Definition same_seating st st' : Prop :=
  num_tables_ st' = num_tables_ st /\
  num_customers_ st' = num_customers_ st /\
  dish_locs_ st' = dish_locs_ st /\
  discount_prior_strength_ st' = discount_prior_strength_ st /\
  discount_prior_beta_ st' = discount_prior_beta_ st /\
  strength_prior_shape_ st' = strength_prior_shape_ st /\
  strength_prior_rate_ st' = strength_prior_rate_ st.

(** Two restaurants with the same hyperparameters and the same priors. *)
Definition same_settings st st' : Prop :=
  discount_ st' = discount_ st /\
  strength_ st' = strength_ st /\
  discount_prior_strength_ st' = discount_prior_strength_ st /\
  discount_prior_beta_ st' = discount_prior_beta_ st /\
  strength_prior_shape_ st' = strength_prior_shape_ st /\
  strength_prior_rate_ st' = strength_prior_rate_ st.

(** A slice sampler that keeps to its contract: when the support it is
    given is not empty, the value it returns lies strictly inside. *)
Definition sampler_in_support (sampler : slice_sampler (Dish := Dish)) : Prop :=
  forall f x eng lower upper w n m y eng',
    (forall u, upper = Some u -> (lower < u)%Q) ->
    sampler f x eng lower upper w n m = Returned (y, eng') ->
    (lower < y)%Q /\ (forall u, upper = Some u -> (y < u)%Q).

(** What the rounds of the loop of [resample_hyperparameters] keep: the
    seating and the priors, the discount when there is no discount prior
    and, with a sampler that keeps to its contract, the validity of the
    hyperparameters. *)
Definition round_keeps (sampler : slice_sampler (Dish := Dish)) st
  (o : outcome Dish (crp Dish * Engine)) : Prop :=
  match o with
  | Aborted _ => True
  | Returned (st', _) =>
      same_seating st st' /\
      (has_discount_prior st = false -> discount_ st' = discount_ st) /\
      (sampler_in_support sampler ->
       valid_hyperparameters (discount_ st) (strength_ st) ->
       has_strength_prior st = true \/ (DBL_MIN - 1 < strength_ st)%Q ->
       valid_hyperparameters (discount_ st') (strength_ st') /\
       (has_strength_prior st = true \/ (DBL_MIN - 1 < strength_ st')%Q))
  end.

End Members.

(** A slice sampler for the examples, which returns the middle of a
    bounded support and the point one above the lower bound of an
    unbounded one, and leaves the engine as it is. *)
Definition inside_sampler : slice_sampler (Dish := N) :=
  fun _ _ eng lower upper _ _ _ =>
    match upper with
    | Some u => Returned (((lower + u) / 2)%Q, eng)
    | None => Returned ((lower + 1)%Q, eng)
    end.

(** The restaurant [crp(1, 1, 1, 1)] after its first [increment], with
    one customer of dish [0]. *)
Definition default_one_customer : crp N :=
  (increment 0 1 [] fresh_default).1.2.

(** [crp(1, NaN, NaN, NaN)] as constructed: the first parameter of the
    discount prior is a number and the second one is not. *)
Definition fresh_half_prior : crp N :=
  mk_crp 0 0 ∅ (4 # 5)%Q 1%Q (Some 1%Q) None None None.

(** ** Properties of the unsigned counters *)

Lemma wrap_small (n : N) : n <= UINT_MAX -> wrap n = n.
Proof. intros Hn. unfold wrap. apply N.mod_small. unfold UINT_MAX in Hn. lia. Qed.

Lemma wrap_le (n : N) : wrap n <= UINT_MAX.
Proof.
  unfold wrap, UINT_MAX.
  pose proof (N.mod_upper_bound n 4294967296). lia.
Qed.

Lemma uincr_small (n : N) : n < UINT_MAX -> uincr n = n + 1.
Proof. intros Hn. unfold uincr. apply wrap_small. lia. Qed.

Lemma uincr_max : uincr UINT_MAX = 0.
Proof. reflexivity. Qed.

Lemma udecr_pos (n : N) : 1 <= n -> n <= UINT_MAX -> udecr n = n - 1.
Proof.
  intros H1 Hn. unfold udecr, wrap.
  replace (n + UINT_MAX) with ((n - 1) + 1 * 4294967296)
    by (unfold UINT_MAX; lia).
  rewrite N.Div0.mod_add. apply N.mod_small. unfold UINT_MAX in Hn. lia.
Qed.

Lemma udecr_zero : udecr 0 = UINT_MAX.
Proof. reflexivity. Qed.

Lemma udecr_uincr (n : N) : n <= UINT_MAX -> udecr (uincr n) = n.
Proof.
  intros Hn. destruct (N.eq_dec n UINT_MAX) as [-> | Hne]; [reflexivity |].
  rewrite uincr_small by lia. rewrite udecr_pos by lia. lia.
Qed.

(** ** Consistency of a table histogram: lemmas *)

Lemma bins_tables_le_customers (bins : list (N * N)) :
  bins_pos bins -> bins_tables bins <= bins_customers bins.
Proof.
  induction 1 as [| [k c] rest [Hk Hc] _ IH]; simpl in *; [lia | nia].
Qed.

Lemma bins_customers_pos_tables (bins : list (N * N)) :
  1 <= bins_customers bins -> 1 <= bins_tables bins.
Proof.
  induction bins as [| [k c] rest IH]; simpl; [lia |].
  intros Hs. destruct (N.eq_dec c 0) as [-> | Hc]; [| lia].
  rewrite N.mul_0_r in Hs. simpl in Hs. specialize (IH Hs). lia.
Qed.

Lemma hist_ok_tables_le (loc : crp_table_manager) :
  hist_ok loc -> tables loc <= customers loc.
Proof.
  intros [Hc Ht Hp]. rewrite Hc, Ht. by apply bins_tables_le_customers.
Qed.

Lemma hist_ok_tables_pos (loc : crp_table_manager) :
  hist_ok loc -> 1 <= customers loc -> 1 <= tables loc.
Proof.
  intros [Hc Ht Hp] H1. rewrite Ht. apply bins_customers_pos_tables.
  by rewrite <- Hc.
Qed.

Lemma h_incr_totals (k : N) (bins : list (N * N)) :
  bins_tables bins < UINT_MAX ->
  bins_tables (h_incr k bins) = bins_tables bins + 1 /\
  bins_customers (h_incr k bins) = bins_customers bins + k.
Proof.
  induction bins as [| [k' c] rest IH]; simpl; intros Hlt.
  - lia.
  - destruct (N.eqb_spec k k') as [-> | Hne]; simpl.
    + rewrite uincr_small by lia. lia.
    + destruct (k <? k'); simpl; [lia |].
      destruct IH as [IHt IHc]; [lia |]. rewrite IHt, IHc. lia.
Qed.

Lemma h_incr_pos (k : N) (bins : list (N * N)) :
  1 <= k -> bins_tables bins < UINT_MAX -> bins_pos bins ->
  bins_pos (h_incr k bins).
Proof.
  intros Hk. induction bins as [| [k' c] rest IH]; simpl; intros Hlt Hp.
  - repeat constructor; simpl; lia.
  - inversion Hp as [| ? ? [Hk' Hc] Hrest]; subst; simpl in *.
    destruct (N.eqb_spec k k') as [-> | Hne].
    + constructor; [| done]. simpl. rewrite uincr_small by lia. lia.
    + destruct (k <? k').
      * constructor; [simpl; lia | done].
      * constructor; [done |]. apply IH; [lia | done].
Qed.

Lemma h_decr_totals (k : N) (bins : list (N * N)) :
  has_bin k bins -> bins_pos bins -> bins_tables bins <= UINT_MAX ->
  bins_tables (h_decr k bins) + 1 = bins_tables bins /\
  bins_customers (h_decr k bins) + k = bins_customers bins /\
  bins_pos (h_decr k bins).
Proof.
  induction bins as [| [k' c] rest IH]; simpl; intros Hin Hp Hle.
  - inversion Hin.
  - inversion Hp as [| ? ? [Hk' Hc] Hrest]; subst; simpl in *.
    destruct (N.eqb_spec k k') as [-> | Hne].
    + rewrite udecr_pos by lia.
      destruct (N.eqb_spec (c - 1) 0) as [H0 | H0]; simpl.
      * split; [lia |]. split; [nia | done].
      * split; [lia |]. split; [nia |].
        constructor; [simpl; lia | done].
    + inversion Hin as [? ? Heq | ? ? Hin']; subst; simpl in *; [congruence |].
      destruct (IH Hin' Hrest) as (IHt & IHc & IHp); [lia |].
      split; [lia |]. split; [lia |]. constructor; [simpl; lia | done].
Qed.

Lemma pick_remove_hits (r : N) (bins : list (N * N)) :
  r < bins_customers bins ->
  exists k, pick_remove r bins = Some k /\ has_bin k bins /\ 1 <= k.
Proof.
  revert r. induction bins as [| [k c] rest IH]; simpl; intros r Hr.
  - lia.
  - destruct (N.ltb_spec r (k * c)) as [Hlt | Hge].
    + exists k. split; [done |]. split; [by left | nia].
    + destruct (IH (r - k * c)) as (k' & Hk' & Hin & H1); [lia |].
      exists k'. split; [done |]. split; [by right | done].
Qed.

(** ** Properties of the random source and of the weighted walk *)

Lemma Qlt_bool_iff (x y : Q) : Qlt_bool x y = true <-> (x < y)%Q.
Proof.
  unfold Qlt_bool. rewrite negb_true_iff.
  split.
  - intros Hb. apply Qnot_le_lt. intros Hle.
    apply Qle_bool_iff in Hle. congruence.
  - intros Hlt. destruct (Qle_bool y x) eqn:Hb; [| done].
    apply Qle_bool_iff in Hb. exfalso. by apply (Qlt_not_le x y).
Qed.

Lemma Qlt_bool_false_iff (x y : Q) : Qlt_bool x y = false <-> (y <= x)%Q.
Proof.
  unfold Qlt_bool. rewrite negb_false_iff. apply Qle_bool_iff.
Qed.

Lemma frac01_range (q : Q) : (0 <= frac01 q)%Q /\ (frac01 q < 1)%Q.
Proof.
  unfold frac01. pose proof (Qfloor_le q) as Hlo.
  pose proof (Qlt_floor q) as Hhi. rewrite inject_Z_plus in Hhi.
  change (inject_Z 1) with 1%Q in Hhi. split; lra.
Qed.

Lemma sample_uniform01_range (eng : Engine) :
  (0 <= (sample_uniform01 eng).1)%Q /\ ((sample_uniform01 eng).1 < 1)%Q.
Proof.
  destruct eng as [| u eng']; simpl; [split; lra | apply frac01_range].
Qed.

Lemma to_double_add (a b : N) :
  (to_double (a + b) == to_double a + to_double b)%Q.
Proof. unfold to_double. by rewrite N2Z.inj_add, inject_Z_plus. Qed.

Lemma to_double_mul (a b : N) :
  (to_double (a * b) == to_double a * to_double b)%Q.
Proof. unfold to_double. by rewrite N2Z.inj_mul, inject_Z_mult. Qed.

Lemma to_double_le (a b : N) : a <= b -> (to_double a <= to_double b)%Q.
Proof. intros Hab. unfold to_double. rewrite <- Zle_Qle. lia. Qed.

Lemma to_double_nonneg (a : N) : (0 <= to_double a)%Q.
Proof. apply (to_double_le 0 a). lia. Qed.

Lemma bins_weight_totals (discount : Q) (bins : list (N * N)) :
  (bins_weight discount bins ==
   to_double (bins_customers bins) - discount * to_double (bins_tables bins))%Q.
Proof.
  induction bins as [| [k c] rest IH]; simpl.
  - change (to_double 0) with 0%Q. ring.
  - rewrite IH, !to_double_add, to_double_mul. ring.
Qed.

Lemma pick_share_hits (discount r : Q) (bins : list (N * N)) :
  (0 <= r)%Q -> (r < bins_weight discount bins)%Q ->
  exists k, pick_share discount r bins = Some k /\ has_bin k bins.
Proof.
  revert r. induction bins as [| [k c] rest IH]; simpl; intros r Hr0 Hr.
  - lra.
  - destruct (Qlt_bool r ((to_double k - discount) * to_double c)) eqn:Hb.
    + exists k. split; [done | by left].
    + apply Qlt_bool_false_iff in Hb.
      destruct (IH (r - (to_double k - discount) * to_double c)%Q)
        as (k' & Hk' & Hin); [lra | lra |].
      exists k'. split; [done | by right].
Qed.

Lemma has_bin_le_customers (k : N) (bins : list (N * N)) :
  has_bin k bins -> bins_pos bins -> k <= bins_customers bins.
Proof.
  induction 1 as [[k' c] rest Hk | [k' c] rest _ IH]; simpl in *;
    intros Hp; inversion Hp as [| ? ? [Hk' Hc] Hrest]; subst; simpl in *.
  - nia.
  - specialize (IH Hrest). lia.
Qed.

(** ** The operations of the table manager keep it consistent *)

Lemma new_table_manager_ok : hist_ok new_table_manager.
Proof. split; simpl; [done | done | constructor]. Qed.

Lemma create_table_ok (loc : crp_table_manager) :
  hist_ok loc -> customers loc < UINT_MAX ->
  hist_ok (create_table loc) /\
  customers (create_table loc) = customers loc + 1 /\
  tables (create_table loc) = tables loc + 1.
Proof.
  intros Hok Hlt. pose proof (hist_ok_tables_le loc Hok) as Hle.
  destruct Hok as [Hc Ht Hp].
  destruct (h_incr_totals 1 (h loc)) as [Hit Hic]; [lia |].
  unfold create_table; simpl. rewrite !uincr_small by lia.
  split; [| done].
  split; simpl; [lia | lia |]. apply h_incr_pos; [lia | lia | done].
Qed.

Lemma share_weight_pos (d : Q) (c t : N) :
  (0 <= d)%Q -> (d < 1)%Q -> 1 <= c -> t <= c ->
  (0 < to_double c - d * to_double t)%Q.
Proof.
  intros Hd0 Hd1 Hc Htc.
  pose proof (to_double_le t c Htc) as Hq.
  pose proof (to_double_le 1 c Hc) as Hq1.
  pose proof (to_double_nonneg t) as Hq0.
  change (to_double 1) with 1%Q in Hq1. nra.
Qed.

Lemma share_table_ok (d : Q) (eng : Engine) (loc : crp_table_manager) :
  hist_ok loc -> 1 <= customers loc -> customers loc < UINT_MAX ->
  (0 <= d)%Q -> (d < 1)%Q ->
  hist_ok (share_table d eng loc).1 /\
  customers (share_table d eng loc).1 = customers loc + 1 /\
  tables (share_table d eng loc).1 = tables loc.
Proof.
  intros Hok H1 Hlt Hd0 Hd1.
  pose proof (hist_ok_tables_le loc Hok) as Hle.
  pose proof (share_weight_pos d _ _ Hd0 Hd1 H1 Hle) as Hz.
  destruct Hok as [Hc Ht Hp].
  unfold share_table.
  pose proof (sample_uniform01_range eng) as [Hu0 Hu1].
  destruct (sample_uniform01 eng) as [u eng']; simpl in Hu0, Hu1.
  set (z := (to_double (customers loc) - d * to_double (tables loc))%Q) in *.
  destruct (pick_share_hits d (z * u)%Q (h loc)) as (cc & Hpick & Hin).
  { nra. }
  { rewrite bins_weight_totals, <- Hc, <- Ht. fold z. nra. }
  rewrite Hpick; simpl.
  pose proof (has_bin_le_customers cc (h loc) Hin Hp) as Hcc.
  destruct (h_decr_totals cc (h loc)) as (Hdt & Hdc & Hdp); [done | done | lia |].
  destruct (h_incr_totals (uincr cc) (h_decr cc (h loc))) as [Hit Hic]; [lia |].
  rewrite !uincr_small in * by lia.
  split; [| done].
  split; simpl; [lia | lia |]. apply h_incr_pos; [lia | lia | done].
Qed.

Lemma remove_index_lt (u : Q) (c : N) :
  (0 <= u)%Q -> (u < 1)%Q -> 1 <= c ->
  Z.to_N (Qfloor (u * to_double c)) < c.
Proof.
  intros Hu0 Hu1 Hc.
  pose proof (to_double_le 1 c Hc) as Hq1. change (to_double 1) with 1%Q in Hq1.
  assert (Hlt : (u * to_double c < to_double c)%Q) by nra.
  pose proof (Qfloor_le (u * to_double c)) as Hfl.
  assert (Hz : (Qfloor (u * to_double c) < Z.of_N c)%Z).
  { rewrite Zlt_Qlt. fold (to_double c). lra. }
  lia.
Qed.

Lemma remove_customer_ok (eng : Engine) (loc : crp_table_manager) :
  hist_ok loc -> 2 <= customers loc -> customers loc <= UINT_MAX ->
  hist_ok (remove_customer eng loc).1.2 /\
  customers (remove_customer eng loc).1.2 + 1 = customers loc /\
  (((remove_customer eng loc).1.1 = (-1)%Z /\
    tables (remove_customer eng loc).1.2 + 1 = tables loc) \/
   ((remove_customer eng loc).1.1 = 0%Z /\
    tables (remove_customer eng loc).1.2 = tables loc)).
Proof.
  intros Hok H2 Hmax.
  pose proof (hist_ok_tables_le loc Hok) as Hle.
  pose proof (hist_ok_tables_pos loc Hok) as Htp.
  destruct Hok as [Hc Ht Hp].
  unfold remove_customer.
  pose proof (sample_uniform01_range eng) as [Hu0 Hu1].
  destruct (sample_uniform01 eng) as [u eng']; simpl in Hu0, Hu1.
  pose proof (remove_index_lt u (customers loc) Hu0 Hu1) as Hr.
  destruct (pick_remove_hits (Z.to_N (Qfloor (u * to_double (customers loc))))
              (h loc)) as (tc & Hpick & Hin & Htc).
  { rewrite <- Hc. apply Hr. lia. }
  rewrite Hpick.
  pose proof (has_bin_le_customers tc (h loc) Hin Hp) as Hcc.
  destruct (h_decr_totals tc (h loc)) as (Hdt & Hdc & Hdp); [done | done | lia |].
  destruct (N.eqb_spec tc 1) as [-> | Hne]; simpl.
  - rewrite !udecr_pos by lia.
    split; [split; simpl; [lia | lia | done] |]. split; [lia |]. left. lia.
  - destruct (h_incr_totals (tc - 1) (h_decr tc (h loc))) as [Hit Hic]; [lia |].
    rewrite !udecr_pos by lia.
    split.
    + split; simpl; [lia | lia |]. apply h_incr_pos; [lia | lia | done].
    + split; [lia |]. right. done.
Qed.

(** ** The data-model invariants of the restaurant *)

Section Invariants.

Context {Dish : Type} `{Countable Dish}.

Implicit Types (st : crp Dish) (locs : gmap Dish crp_table_manager).
Implicit Types (loc : crp_table_manager) (dish : Dish).

Lemma sum_over_empty (f : crp_table_manager -> N) :
  sum_over f (∅ : gmap Dish crp_table_manager) = 0.
Proof. unfold sum_over. by rewrite map_fold_empty. Qed.

Lemma sum_over_insert_fresh (f : crp_table_manager -> N) locs dish loc :
  locs !! dish = None ->
  sum_over f (<[dish := loc]> locs) = f loc + sum_over f locs.
Proof.
  intros Hnone. unfold sum_over.
  rewrite map_fold_insert_L; [done | intros; lia | done].
Qed.

Lemma sum_over_lookup (f : crp_table_manager -> N) locs dish loc :
  locs !! dish = Some loc ->
  sum_over f locs = f loc + sum_over f (delete dish locs).
Proof.
  intros Hsome. unfold sum_over.
  rewrite (map_fold_delete_L _ _ dish loc locs); [done | intros; lia | done].
Qed.

Lemma sum_over_replace (f : crp_table_manager -> N) locs dish loc' :
  sum_over f (<[dish := loc']> locs) = f loc' + sum_over f (delete dish locs).
Proof.
  rewrite <- insert_delete_eq.
  apply sum_over_insert_fresh, lookup_delete_eq.
Qed.

Lemma sum_over_mono (f g : crp_table_manager -> N) locs :
  map_Forall (fun _ loc => f loc <= g loc) locs ->
  sum_over f locs <= sum_over g locs.
Proof.
  induction locs as [| dish loc locs Hnone IH] using map_ind; intros Hall.
  - by rewrite !sum_over_empty.
  - rewrite !sum_over_insert_fresh by done.
    apply map_Forall_insert in Hall as [Hloc Hrest]; [| done].
    specialize (IH Hrest). lia.
Qed.

Lemma invariants_tables_le st :
  invariants st -> num_tables_ st <= num_customers_ st.
Proof.
  intros Hinv. rewrite (inv_customers st Hinv), (inv_tables st Hinv).
  apply sum_over_mono.
  eapply map_Forall_impl; [apply (inv_occupancy st Hinv) |].
  intros dish loc [_ Hle]. done.
Qed.

Lemma invariants_dish_le st dish loc :
  invariants st -> dish_locs_ st !! dish = Some loc ->
  customers loc <= num_customers_ st /\ tables loc <= num_tables_ st.
Proof.
  intros Hinv Hsome.
  rewrite (inv_customers st Hinv), (inv_tables st Hinv).
  unfold sum_customers, sum_tables.
  rewrite (sum_over_lookup customers _ dish loc Hsome).
  rewrite (sum_over_lookup tables _ dish loc Hsome). lia.
Qed.

Lemma invariants_empty st :
  invariants st -> num_customers_ st = 0 ->
  dish_locs_ st = ∅ /\ num_tables_ st = 0.
Proof.
  intros Hinv Hzero.
  assert (Hempty : dish_locs_ st = ∅).
  { apply map_empty. intros dish.
    destruct (dish_locs_ st !! dish) as [loc |] eqn:Hsome; [| done].
    pose proof (invariants_dish_le st dish loc Hinv Hsome) as [Hle _].
    pose proof (inv_present st Hinv dish loc Hsome) as Hpos. simpl in Hpos.
    lia. }
  split; [done |].
  rewrite (inv_tables st Hinv), Hempty. apply sum_over_empty.
Qed.

Lemma consistent_invariants st : consistent st -> invariants st.
Proof.
  intros [Hc Ht Hd Hs Hall Hr]. split; try done.
  - eapply map_Forall_impl; [apply Hall |]. by intros dish loc [_ H1].
  - eapply map_Forall_impl; [apply Hall |]. intros dish loc [Hok H1].
    split; [intros _; by apply hist_ok_tables_pos | by apply hist_ok_tables_le].
Qed.

Lemma check_hyperparameters_returned st st' :
  check_hyperparameters st = Returned st' ->
  st' = st /\ (0 <= discount_ st)%Q /\ (discount_ st < 1)%Q /\
  (- discount_ st < strength_ st)%Q.
Proof.
  unfold check_hyperparameters.
  destruct (Qlt_bool (discount_ st) 0) eqn:Hlo; [done |].
  destruct (Qle_bool 1 (discount_ st)) eqn:Hhi; [done |].
  destruct (Qle_bool (strength_ st) (- discount_ st)) eqn:Hs; [done |].
  simpl. intros [= <-].
  apply Qlt_bool_false_iff in Hlo.
  split; [done |]. split; [done |]. split.
  - apply Qnot_le_lt. intros Hle. apply Qle_bool_iff in Hle. congruence.
  - apply Qnot_le_lt. intros Hle. apply Qle_bool_iff in Hle. congruence.
Qed.

Lemma consistent_fresh st0 st :
  num_tables_ st0 = 0 -> num_customers_ st0 = 0 -> dish_locs_ st0 = ∅ ->
  check_hyperparameters st0 = Returned st -> consistent st.
Proof.
  intros Ht Hc Hl Hchk.
  apply check_hyperparameters_returned in Hchk as (-> & Hd0 & Hd1 & Hs).
  split; try done.
  - rewrite Hc, Hl. unfold sum_customers. by rewrite sum_over_empty.
  - rewrite Ht, Hl. unfold sum_tables. by rewrite sum_over_empty.
  - rewrite Hl. apply map_Forall_empty.
  - rewrite Hc. done.
Qed.

Lemma consistent_clear st : consistent st -> consistent (clear st).
Proof.
  intros [Hc Ht Hd Hs Hall Hr]. split; simpl; done.
Qed.

Lemma consistent_dish_le st dish loc :
  consistent st -> dish_locs_ st !! dish = Some loc ->
  customers loc <= num_customers_ st.
Proof.
  intros Hcons Hsome.
  by apply (invariants_dish_le st dish loc (consistent_invariants st Hcons)).
Qed.

(** Replacing the entry of a dish of a consistent restaurant, with the
    counters moved by as much as the entry's. *)
Lemma consistent_replace st dish loc loc' nt nc :
  consistent st -> dish_locs_ st !! dish = Some loc ->
  hist_ok loc' -> 1 <= customers loc' ->
  nc + customers loc = num_customers_ st + customers loc' ->
  nt + tables loc = num_tables_ st + tables loc' ->
  nc <= UINT_MAX ->
  consistent (with_counts st nt nc (<[dish := loc']> (dish_locs_ st))).
Proof.
  intros [Hc Ht Hd Hs Hall Hr] Hsome Hok H1 Hnc Hnt Hmax.
  unfold sum_customers, sum_tables in *.
  rewrite (sum_over_lookup customers _ dish loc Hsome) in Hc.
  rewrite (sum_over_lookup tables _ dish loc Hsome) in Ht.
  split; simpl; try done.
  - unfold sum_customers. rewrite sum_over_replace. lia.
  - unfold sum_tables. rewrite sum_over_replace. lia.
  - by apply map_Forall_insert_2.
Qed.

(** Seating the first customer of a dish that the map does not hold. *)
Lemma consistent_insert_fresh st dish :
  consistent st -> dish_locs_ st !! dish = None ->
  num_customers_ st < UINT_MAX ->
  consistent
    (with_counts st (num_tables_ st + 1) (num_customers_ st + 1)
       (<[dish := create_table new_table_manager]> (dish_locs_ st))).
Proof.
  intros [Hc Ht Hd Hs Hall Hr] Hnone Hlt.
  destruct (create_table_ok new_table_manager new_table_manager_ok)
    as (Hok & Hcc & Hct); [done |].
  split; simpl; try done.
  - unfold sum_customers in *. rewrite sum_over_insert_fresh by done.
    rewrite Hcc. simpl. lia.
  - unfold sum_tables in *. rewrite sum_over_insert_fresh by done.
    rewrite Hct. simpl. lia.
  - apply map_Forall_insert_2; [| done]. split; [done |]. rewrite Hcc. simpl. lia.
  - lia.
Qed.

Lemma consistent_increment st dish p0 eng :
  consistent st -> num_customers_ st < UINT_MAX ->
  consistent (increment dish p0 eng st).1.2.
Proof.
  intros Hcons Hlt.
  pose proof (invariants_tables_le st (consistent_invariants st Hcons)) as Htn.
  unfold increment, subscript.
  destruct (dish_locs_ st !! dish) as [loc |] eqn:Hsome.
  - pose proof (cons_dishes st Hcons dish loc Hsome) as [Hok H1]. simpl in H1.
    pose proof (consistent_dish_le st dish loc Hcons Hsome) as Hle.
    destruct (N.eqb_spec (customers loc) 0) as [H0 | _]; [lia |]. simpl.
    destruct (sample_bernoulli _ _ eng) as [[|] eng1].
    + destruct (cons_discount st Hcons) as [Hd0 Hd1].
      destruct (share_table_ok (discount_ st) eng1 loc) as (Hok' & Hc' & Ht');
        [done | done | lia | done | done |].
      destruct (share_table (discount_ st) eng1 loc) as [loc' eng2].
      simpl in *. rewrite uincr_small by done.
      apply (consistent_replace st dish loc loc'); [done | done | done | | | | ]; lia.
    + destruct (create_table_ok loc) as (Hok' & Hc' & Ht'); [done | lia |].
      simpl. rewrite !uincr_small by lia.
      apply (consistent_replace st dish loc (create_table loc));
        [done | done | done | | | | ]; lia.
  - simpl. rewrite insert_insert_eq, !uincr_small by lia.
    by apply consistent_insert_fresh.
Qed.

Lemma consistent_decrement st dish eng delta st' eng' :
  consistent st ->
  decrement dish eng st = Returned (delta, st', eng') ->
  consistent st'.
Proof.
  intros Hcons. unfold decrement, subscript.
  destruct (dish_locs_ st !! dish) as [loc |] eqn:Hsome; [| done].
  pose proof (cons_dishes st Hcons dish loc Hsome) as [Hok H1]. simpl in H1.
  pose proof (invariants_dish_le st dish loc
                (consistent_invariants st Hcons) Hsome) as [Hle Htle].
  pose proof (invariants_tables_le st (consistent_invariants st Hcons)) as Htn.
  pose proof (cons_range st Hcons) as Hr.
  pose proof (hist_ok_tables_le loc Hok) as Htc.
  pose proof (hist_ok_tables_pos loc Hok H1) as Htp.
  destruct (N.eqb_spec (customers loc) 0) as [H0 | _]; [lia |].
  destruct (N.eqb_spec (customers loc) 1) as [Hone | Hmany].
  - intros [= <- <- <-]. rewrite !udecr_pos by lia.
    destruct Hcons as [Hc Ht Hd Hs Hall _].
    unfold sum_customers, sum_tables in *.
    rewrite (sum_over_lookup customers _ dish loc Hsome) in Hc.
    rewrite (sum_over_lookup tables _ dish loc Hsome) in Ht.
    split; simpl; try done.
    + unfold sum_customers. lia.
    + unfold sum_tables. lia.
    + by apply map_Forall_delete.
    + lia.
  - destruct (remove_customer_ok eng loc) as (Hok' & Hc' & Hdelta);
      [done | lia | lia |].
    destruct (remove_customer eng loc) as [[delta0 loc'] eng0]. simpl in *.
    intros [= <- <- <-].
    destruct Hdelta as [[-> Ht'] | [-> Ht']]; simpl;
      rewrite !udecr_pos by lia;
      apply (consistent_replace st dish loc loc'); (done || lia).
Qed.

Lemma decrement_customers st dish eng delta st' eng' :
  consistent st ->
  decrement dish eng st = Returned (delta, st', eng') ->
  num_customers_ st' + 1 = num_customers_ st.
Proof.
  intros Hcons. unfold decrement, subscript.
  destruct (dish_locs_ st !! dish) as [loc |] eqn:Hsome; [| done].
  pose proof (cons_dishes st Hcons dish loc Hsome) as [_ H1]. simpl in H1.
  pose proof (consistent_dish_le st dish loc Hcons Hsome) as Hle.
  pose proof (cons_range st Hcons) as Hr.
  destruct (customers loc =? 0); [done |].
  destruct (customers loc =? 1).
  - intros [= <- <- <-]. simpl. rewrite udecr_pos by lia. lia.
  - destruct (remove_customer eng loc) as [[delta0 loc'] eng0].
    intros [= <- <- <-]. simpl. rewrite udecr_pos by lia. lia.
Qed.

Lemma reachable_consistent n st :
  reachable_in n st -> n <= UINT_MAX ->
  consistent st /\ num_customers_ st <= n.
Proof.
  induction 1 as [disc str st Hnew | ds db cs cr d c st Hnew
                 | n st dish p0 eng _ IH
                 | n st dish eng delta st' eng' _ IH Hdec
                 | n st _ IH]; intros Hn.
  - unfold crp_new in Hnew. pose proof Hnew as Hchk.
    apply check_hyperparameters_returned in Hchk as (-> & _).
    split; [by eapply consistent_fresh; [| | | apply Hnew] | simpl; lia].
  - unfold crp_new_priors in Hnew. pose proof Hnew as Hchk.
    apply check_hyperparameters_returned in Hchk as (-> & _).
    split; [by eapply consistent_fresh; [| | | apply Hnew] | simpl; lia].
  - destruct IH as [Hcons Hle]; [lia |].
    split; [apply consistent_increment; [done | lia] |].
    assert (Hnc : num_customers_ (increment dish p0 eng st).1.2
                  = uincr (num_customers_ st)).
    { unfold increment. destruct (subscript dish _) as [loc locs].
      destruct (if negb _ then _ else _) as [[|] eng1]; [| done].
      by destruct (share_table _ eng1 loc). }
    rewrite Hnc, uincr_small by lia. lia.
  - destruct IH as [Hcons Hle]; [done |].
    split; [by eapply consistent_decrement |].
    pose proof (decrement_customers _ _ _ _ _ _ Hcons Hdec). lia.
  - destruct IH as [Hcons Hle]; [done |].
    split; [by apply consistent_clear | simpl; lia].
Qed.

(** A run in which no [increment] is called at [numCustomers = 2^32 - 1]
    keeps the restaurant consistent. *)
Lemma nowrap_consistent st : reachable_nowrap st -> consistent st.
Proof.
  induction 1 as [disc str st Hnew | ds db cs cr d c st Hnew
                 | st dish p0 eng _ IH Hlt
                 | st dish eng delta st' eng' _ IH Hdec
                 | st _ IH].
  - unfold crp_new in Hnew. pose proof Hnew as Hchk.
    apply check_hyperparameters_returned in Hchk as (-> & _).
    by eapply consistent_fresh; [| | | apply Hnew].
  - unfold crp_new_priors in Hnew. pose proof Hnew as Hchk.
    apply check_hyperparameters_returned in Hchk as (-> & _).
    by eapply consistent_fresh; [| | | apply Hnew].
  - by apply consistent_increment.
  - by eapply consistent_decrement.
  - by apply consistent_clear.
Qed.

(** A run with at most [2^32 - 1] calls of [increment] is such a run. *)
Lemma reachable_in_nowrap n st :
  reachable_in n st -> n <= UINT_MAX -> reachable_nowrap st.
Proof.
  induction 1 as [disc str st Hnew | ds db cs cr d c st Hnew
                 | n st dish p0 eng Hreach IH
                 | n st dish eng delta st' eng' _ IH Hdec
                 | n st _ IH]; intros Hn.
  - by eapply nowrap_new.
  - by eapply nowrap_new_priors.
  - destruct (reachable_consistent n st Hreach) as [_ Hle]; [lia |].
    apply nowrap_increment; [apply IH |]; lia.
  - eapply nowrap_decrement; [by apply IH | done].
  - apply nowrap_clear. by apply IH.
Qed.

(** C1, as amended: starting from a freshly constructed restaurant, after
    any sequence of [increment], [decrement] (each one on a dish with a
    seated customer, so that it returns) and [clear] calls in which no
    [increment] is called while [numCustomers] is [2^32 - 1],
    [numCustomers] is the sum over [dishState] of the per-dish customer
    counts, [numTables] is the sum of the per-dish table counts, and
    [numTables <= numCustomers]. *)
Theorem counters_are_sums (st : crp Dish) :
  reachable_nowrap st ->
  num_customers_ st = sum_customers (dish_locs_ st) /\
  num_tables_ st = sum_tables (dish_locs_ st) /\
  num_tables_ st <= num_customers_ st.
Proof.
  intros Hreach.
  pose proof (nowrap_consistent st Hreach) as Hcons.
  pose proof (consistent_invariants st Hcons) as Hinv.
  split; [apply (inv_customers st Hinv) |].
  split; [apply (inv_tables st Hinv) | by apply invariants_tables_le].
Qed.

End Invariants.

(** ** Seating and unseating *)

Section Seating.

Context {Dish : Type} `{Countable Dish}.

Implicit Types (st : crp Dish) (dish : Dish) (eng : Engine).

Lemma share_table_counts (d : Q) eng (loc : crp_table_manager) :
  customers (share_table d eng loc).1 = uincr (customers loc) /\
  tables (share_table d eng loc).1 = tables loc.
Proof. unfold share_table. by destruct (sample_uniform01 eng). Qed.

(** C2, as amended: for every dish and every [p0]: if the dish has no
    seated customers, [increment] opens a new table without drawing from
    the random source and returns 1; in every case the returned value is 1
    when the dish's histogram got a new table and 0 when the customer
    joined a table of the histogram, and [increment] increases
    [numCustomers] by exactly 1 unless it is [2^32 - 1], increases the
    dish's customer count by exactly 1 unless it is [2^32 - 1], and
    increases [numTables] by exactly the returned value unless it is
    [2^32 - 1]. *)
Theorem increment_effect st dish (p0 : Q) eng :
  (seated dish st = 0 ->
   (increment dish p0 eng st).1.1 = 1%Z /\ (increment dish p0 eng st).2 = eng) /\
  (((increment dish p0 eng st).1.1 = 1%Z /\
    dish_locs_ (increment dish p0 eng st).1.2 !! dish
    = Some (create_table (entry dish st))) \/
   ((increment dish p0 eng st).1.1 = 0%Z /\
    exists eng1,
      dish_locs_ (increment dish p0 eng st).1.2 !! dish
      = Some (share_table (discount_ st) eng1 (entry dish st)).1)) /\
  (num_customers_ st < UINT_MAX ->
   num_customers_ (increment dish p0 eng st).1.2 = num_customers_ st + 1) /\
  (seated dish st < UINT_MAX ->
   seated dish (increment dish p0 eng st).1.2 = seated dish st + 1) /\
  (num_tables_ st < UINT_MAX ->
   Z.of_N (num_tables_ (increment dish p0 eng st).1.2)
   = (Z.of_N (num_tables_ st) + (increment dish p0 eng st).1.1)%Z).
Proof.
  unfold seated, entry, increment, subscript.
  destruct (dish_locs_ st !! dish) as [loc |] eqn:Hsome.
  - destruct (N.eqb_spec (customers loc) 0) as [H0 | Hpos]; simpl.
    + rewrite lookup_insert_eq. unfold create_table; simpl.
      repeat split; auto; intros Hlt; rewrite !uincr_small by lia; lia.
    + destruct (sample_bernoulli _ _ eng) as [[|] eng1].
      * pose proof (share_table_counts (discount_ st) eng1 loc) as [Hsc Hst].
        destruct (share_table (discount_ st) eng1 loc) as [loc' eng2] eqn:Hsh.
        simpl in *. rewrite lookup_insert_eq, Hsc.
        split; [lia |]. split.
        { right. split; [done |]. exists eng1. by rewrite Hsh. }
        repeat split; intros Hlt; rewrite ?uincr_small by lia; lia.
      * simpl. rewrite lookup_insert_eq. unfold create_table; simpl.
        split; [lia |]. split; [by left |].
        repeat split; intros Hlt; rewrite !uincr_small by lia; lia.
  - simpl. rewrite lookup_insert_eq. unfold create_table; simpl.
    repeat split; auto; intros Hlt; rewrite !uincr_small by lia; lia.
Qed.

(** Under the data-model invariants a dish with a customer makes both
    counters positive. *)
Lemma invariants_seated_counters st dish :
  invariants st -> 1 <= seated dish st ->
  1 <= num_tables_ st /\ 1 <= num_customers_ st.
Proof.
  unfold seated. intros Hinv Hpos.
  destruct (dish_locs_ st !! dish) as [loc |] eqn:Hsome; [| lia].
  pose proof (invariants_dish_le st dish loc Hinv Hsome) as [Hle Htle].
  pose proof (inv_occupancy st Hinv dish loc Hsome) as [Htp _].
  simpl in Htp. specialize (Htp Hpos). lia.
Qed.

(** C3: in a restaurant that satisfies the data-model invariants (its
    counters being [unsigned] values), for every dish with exactly one
    seated customer, [decrement] removes the dish's entry from [dishState],
    decrements [numTables] by one, decrements [numCustomers] by one and
    returns -1; the random source comes back as it was given, the
    histogram's removal, which draws from it, not being called. *)
Theorem decrement_last_customer st dish eng :
  invariants st -> counters_in_range st -> seated dish st = 1 ->
  exists st',
    decrement dish eng st = Returned ((-1)%Z, st', eng) /\
    dish_locs_ st' = delete dish (dish_locs_ st) /\
    dish_locs_ st' !! dish = None /\
    num_tables_ st' + 1 = num_tables_ st /\
    num_customers_ st' + 1 = num_customers_ st.
Proof.
  intros Hinv [Htmax Hcmax] Hone.
  destruct (invariants_seated_counters st dish Hinv) as [Ht1 Hn1]; [lia |].
  revert Hone. unfold seated, decrement, subscript.
  destruct (dish_locs_ st !! dish) as [loc |] eqn:Hsome; [| done].
  intros Hone. rewrite Hone. simpl. eexists. split; [reflexivity |]. simpl.
  rewrite lookup_delete_eq, !udecr_pos by lia.
  repeat split; lia.
Qed.

(** C4: for every restaurant (its counters being [unsigned] values) and
    every dish not present in [dishState], [increment] on the dish
    followed immediately by [decrement] on it restores [numTables],
    [numCustomers] and the absence of the dish: the restaurant is the one
    before the [increment]. *)
Theorem increment_decrement_fresh st dish (p0 : Q) eng eng2 :
  counters_in_range st -> dish_locs_ st !! dish = None ->
  exists st',
    decrement dish eng2 (increment dish p0 eng st).1.2
    = Returned ((-1)%Z, st', eng2) /\
    num_tables_ st' = num_tables_ st /\
    num_customers_ st' = num_customers_ st /\
    dish_locs_ st' !! dish = None /\
    st' = st.
Proof.
  intros [Ht Hc] Hnone. unfold increment, subscript. rewrite Hnone. simpl.
  unfold decrement, subscript. simpl. rewrite lookup_insert_eq. simpl.
  eexists. split; [reflexivity |]. simpl.
  rewrite !udecr_uincr by done.
  rewrite insert_insert_eq, delete_insert_eq, delete_id by done.
  repeat split; try done. by destruct st.
Qed.

(** C10: for every dish not present in [dishState], [decrement] inserts a
    fresh entry without customers for the dish before it checks the
    customer count: the call stops at the assertion with a [dishState]
    that holds the dish with zero customers, which the invariant on the
    dishes present forbids, and the restaurant is not the one the call
    was given. *)
Theorem decrement_absent_inserts st dish eng :
  dish_locs_ st !! dish = None ->
  exists st',
    decrement dish eng st = Aborted st' /\
    dish_locs_ st' = <[dish := new_table_manager]> (dish_locs_ st) /\
    seated dish st' = 0 /\
    is_Some (dish_locs_ st' !! dish) /\
    ~ map_Forall (fun _ loc => 1 <= customers loc) (dish_locs_ st') /\
    ~ invariants st' /\
    st' <> st.
Proof.
  intros Hnone. unfold decrement, subscript. rewrite Hnone. simpl.
  eexists. split; [reflexivity |]. unfold seated. simpl.
  rewrite lookup_insert_eq. simpl.
  assert (Hbad : ~ map_Forall (fun _ loc => 1 <= customers loc)
                   (<[dish := new_table_manager]> (dish_locs_ st))).
  { intros Hall. specialize (Hall dish new_table_manager (lookup_insert_eq _ _ _)).
    simpl in Hall. lia. }
  repeat split; try done.
  - intros Hinv. apply Hbad. apply (inv_present _ Hinv).
  - intros Heq. apply (f_equal (fun s => dish_locs_ s !! dish)) in Heq.
    simpl in Heq. rewrite lookup_insert_eq, Hnone in Heq. done.
Qed.

End Seating.

(** ** The predictive probability *)

Section Probability.

Context {Dish : Type} `{Countable Dish}.

Implicit Types (st : crp Dish) (dish : Dish).

Lemma fdiv_defined (rnd : Q -> Q) (x y : Q) :
  ~ (y == 0)%Q -> fdiv rnd x y = Some (rnd (x / y))%Q.
Proof.
  intros Hy. unfold fdiv. destruct (Qeq_bool y 0) eqn:Hb; [| done].
  apply Qeq_bool_iff in Hb. done.
Qed.

Lemma Qdiv_nonneg (a b : Q) : (0 <= a)%Q -> (0 < b)%Q -> (0 <= a / b)%Q.
Proof.
  intros Ha Hb. apply Qle_shift_div_l; [done |]. lra.
Qed.

Lemma invariants_tables_pos st :
  invariants st -> 1 <= num_customers_ st -> 1 <= num_tables_ st.
Proof.
  intros Hinv Hpos.
  destruct (decide (dish_locs_ st = ∅)) as [Hempty | Hne].
  - rewrite (inv_customers st Hinv), Hempty in Hpos.
    unfold sum_customers in Hpos. rewrite sum_over_empty in Hpos. lia.
  - apply map_choose in Hne as (dish & loc & Hsome).
    pose proof (invariants_dish_le st dish loc Hinv Hsome) as [_ Htle].
    pose proof (inv_present st Hinv dish loc Hsome) as Hc.
    pose proof (inv_occupancy st Hinv dish loc Hsome) as [Ht _].
    simpl in *. specialize (Ht Hc). lia.
Qed.

Lemma Qdiv_nonpos (a b : Q) : (a <= 0)%Q -> (b < 0)%Q -> (0 <= a / b)%Q.
Proof.
  intros Ha Hb.
  assert (Heq : (a / b == (- a) / (- b))%Q) by (field; lra).
  rewrite Heq. apply Qdiv_nonneg; lra.
Qed.

Lemma no_rounding_rounding : rounding no_rounding.
Proof.
  split; unfold representable, no_rounding; try done.
Qed.

Lemma coarse_rounding_multiple (z : Z) :
  (coarse_rounding (inject_Z z / 1024) == inject_Z z / 1024)%Q.
Proof.
  unfold coarse_rounding.
  assert (Heq : (inject_Z z / 1024 * 1024 == inject_Z z)%Q) by field.
  by rewrite Heq, Qfloor_Z.
Qed.

Lemma coarse_rounding_rounding : rounding coarse_rounding.
Proof.
  split.
  - intros x y Hxy. unfold coarse_rounding. by rewrite Hxy.
  - intros x y Hxy. unfold coarse_rounding.
    assert (Hf : (Qfloor (x * 1024) <= Qfloor (y * 1024))%Z)
      by (apply Qfloor_resp_le; lra).
    rewrite Zle_Qle in Hf.
    apply Qmult_le_compat_r; [done | by vm_compute].
  - intros n _. unfold representable.
    assert (Heq : (to_double n == inject_Z (Z.of_N n * 1024) / 1024)%Q)
      by (unfold to_double; rewrite inject_Z_mult; field).
    rewrite Heq at 2. rewrite <- coarse_rounding_multiple.
    unfold coarse_rounding. by rewrite Heq.
  - intros x y Hx Hy. unfold representable in Hx, Hy.
    assert (Hsum : (x + y
                    == inject_Z (Qfloor (x * 1024) + Qfloor (y * 1024)) / 1024)%Q).
    { rewrite inject_Z_plus. unfold coarse_rounding in Hx, Hy.
      rewrite <- Hx at 1. rewrite <- Hy at 1. field. }
    intros Hz. rewrite Hsum.
    rewrite <- coarse_rounding_multiple.
    unfold coarse_rounding in Hz |- *. by rewrite <- Hsum.
Qed.

Lemma rnd_zero (rnd : Q -> Q) : rounding rnd -> (rnd 0 == 0)%Q.
Proof. intros Hr. apply (rnd_unsigned rnd Hr 0). done. Qed.

Lemma rnd_nonneg (rnd : Q -> Q) (x : Q) :
  rounding rnd -> (0 <= x)%Q -> (0 <= rnd x)%Q.
Proof.
  intros Hr Hx. pose proof (rnd_mono rnd Hr 0 x Hx).
  pose proof (rnd_zero rnd Hr). lra.
Qed.

Lemma rnd_nonpos (rnd : Q -> Q) (x : Q) :
  rounding rnd -> (x <= 0)%Q -> (rnd x <= 0)%Q.
Proof.
  intros Hr Hx. pose proof (rnd_mono rnd Hr x 0 Hx).
  pose proof (rnd_zero rnd Hr). lra.
Qed.

(** Whatever the rounding, [prob] returns a number that is not negative. *)
Lemma prob_rounded_nonneg (rnd : Q -> Q) st dish (p0 : Q) :
  rounding rnd ->
  representable rnd (discount_ st) -> representable rnd (strength_ st) ->
  invariants st -> num_customers_ st <= UINT_MAX -> (0 <= p0)%Q ->
  (num_customers_ st = 0 -> ~ (strength_ st == 0)%Q) ->
  exists w, prob rnd dish p0 st = Some w /\ (0 <= w)%Q.
Proof.
  intros Hr Hrd Hrs Hinv Hmax Hp0 Hnz.
  destruct (inv_discount st Hinv) as [Hd0 Hd1].
  pose proof (inv_strength st Hinv) as Hs.
  pose proof (invariants_tables_le st Hinv) as Htn.
  pose proof (rnd_unsigned rnd Hr (num_customers_ st) Hmax) as Hrn.
  unfold representable in Hrd, Hrs, Hrn.
  assert (Htotal : ~ (rnd (to_double (num_customers_ st) + strength_ st) == 0)%Q).
  { intros Hz. apply (rnd_sum rnd Hr) in Hz; [| done | done].
    destruct (N.eq_dec (num_customers_ st) 0) as [Hzero | Hpos].
    - apply (Hnz Hzero). rewrite Hzero in Hz.
      change (to_double 0) with 0%Q in Hz. lra.
    - pose proof (to_double_le 1 (num_customers_ st) ltac:(lia)) as Hq.
      change (to_double 1) with 1%Q in Hq. lra. }
  unfold prob.
  destruct (N.eq_dec (num_customers_ st) 0) as [Hzero | Hpos].
  - destruct (invariants_empty st Hinv Hzero) as [Hempty Htz].
    specialize (Hnz Hzero).
    rewrite Hempty, lookup_empty. eexists.
    split; [by apply fdiv_defined |].
    apply (rnd_nonneg rnd _ Hr).
    rewrite Hzero, Htz. change (to_double 0) with 0%Q.
    assert (H0 : (rnd (0 * discount_ st) == 0)%Q).
    { rewrite (rnd_proper rnd Hr (0 * discount_ st) 0) by ring.
      by apply rnd_zero. }
    assert (Hsum : (rnd (rnd (0 * discount_ st) + strength_ st)
                    == strength_ st)%Q).
    { rewrite (rnd_proper rnd Hr _ (strength_ st)) by lra. done. }
    assert (Htot : (rnd (0 + strength_ st) == strength_ st)%Q).
    { rewrite (rnd_proper rnd Hr _ (strength_ st)) by lra. done. }
    assert (Hnum : (rnd (rnd (rnd (0 * discount_ st) + strength_ st) * p0)
                    == rnd (strength_ st * p0))%Q).
    { apply (rnd_proper rnd Hr). by rewrite Hsum. }
    rewrite Hnum, Htot.
    destruct (Qlt_le_dec 0 (strength_ st)) as [Hspos | Hsneg].
    + apply Qdiv_nonneg; [| done].
      apply (rnd_nonneg rnd _ Hr). by apply Qmult_le_0_compat; [lra |].
    + apply Qdiv_nonpos; [| lra].
      apply (rnd_nonpos rnd _ Hr). nra.
  - assert (Hn1 : 1 <= num_customers_ st) by lia.
    pose proof (invariants_tables_pos st Hinv Hn1) as Ht1.
    pose proof (to_double_le 1 _ Hn1) as Hqn.
    pose proof (to_double_le 1 _ Ht1) as Hqt.
    change (to_double 1) with 1%Q in Hqn, Hqt.
    assert (Hden : (0 < rnd (to_double (num_customers_ st) + strength_ st))%Q).
    { pose proof (rnd_nonneg rnd (to_double (num_customers_ st) + strength_ st)
                    Hr ltac:(lra)) as Hge.
      apply Qle_lt_or_eq in Hge as [Hlt | Heq]; [done |].
      exfalso. apply Htotal. by rewrite <- Heq. }
    assert (Hprod : (rnd (discount_ st)
                     <= rnd (to_double (num_tables_ st) * discount_ st))%Q)
      by (apply (rnd_mono rnd Hr); nra).
    assert (Hrr : (0 <= rnd (rnd (to_double (num_tables_ st) * discount_ st)
                             + strength_ st))%Q)
      by (apply (rnd_nonneg rnd _ Hr); lra).
    assert (Hrp : (0 <= rnd (rnd (rnd (to_double (num_tables_ st) * discount_ st)
                                  + strength_ st) * p0))%Q)
      by (apply (rnd_nonneg rnd _ Hr); by apply Qmult_le_0_compat).
    destruct (dish_locs_ st !! dish) as [loc |] eqn:Hsome.
    + pose proof (inv_occupancy st Hinv dish loc Hsome) as [_ Hle].
      pose proof (invariants_dish_le st dish loc Hinv Hsome) as [Hcn _].
      simpl in Hle. pose proof (to_double_le _ _ Hle) as Hqle.
      pose proof (to_double_nonneg (tables loc)) as Hqt0.
      pose proof (rnd_unsigned rnd Hr (customers loc) ltac:(lia)) as Hrc.
      unfold representable in Hrc.
      assert (Hdt : (rnd (discount_ st * to_double (tables loc))
                     <= rnd (to_double (customers loc)))%Q)
        by (apply (rnd_mono rnd Hr); nra).
      eexists. split; [by apply fdiv_defined |].
      apply (rnd_nonneg rnd _ Hr). apply Qdiv_nonneg; [| done].
      apply (rnd_nonneg rnd _ Hr).
      pose proof (rnd_nonneg rnd
                    (to_double (customers loc)
                     - rnd (discount_ st * to_double (tables loc)))%Q
                    Hr ltac:(lra)).
      lra.
    + eexists. split; [by apply fdiv_defined |].
      apply (rnd_nonneg rnd _ Hr). by apply Qdiv_nonneg.
Qed.

(** C5, as amended: with [F = double], for every restaurant that
    satisfies the data-model invariants, has a finite strength and is not
    both empty and of strength zero, and for every finite [p0 >= 0],
    [prob(dish, p0)], which only reads the restaurant, returns a weight
    that is not negative as long as no operation overflows: in exact
    arithmetic the weight of the predictive formula, and with every
    rounding of the operations a number that is not negative. *)
Theorem prob_weight st dish (p0 : Q) :
  invariants st -> (0 <= p0)%Q ->
  (num_customers_ st = 0 -> ~ (strength_ st == 0)%Q) ->
  prob no_rounding dish p0 st = Some (predictive_weight dish p0 st) /\
  (0 <= predictive_weight dish p0 st)%Q /\
  (forall rnd : Q -> Q,
     rounding rnd ->
     representable rnd (discount_ st) -> representable rnd (strength_ st) ->
     num_customers_ st <= UINT_MAX ->
     exists w, prob rnd dish p0 st = Some w /\ (0 <= w)%Q).
Proof.
  intros Hinv Hp0 Hnz.
  assert (Hexact : prob no_rounding dish p0 st
                   = Some (predictive_weight dish p0 st) /\
                   (0 <= predictive_weight dish p0 st)%Q).
  { destruct (inv_discount st Hinv) as [Hd0 Hd1].
    pose proof (inv_strength st Hinv) as Hs.
    unfold prob, predictive_weight, no_rounding.
    destruct (N.eq_dec (num_customers_ st) 0) as [Hzero | Hpos].
    - destruct (invariants_empty st Hinv Hzero) as [Hempty Htz].
      specialize (Hnz Hzero).
      rewrite Hempty, lookup_empty, Hzero, Htz.
      change (to_double 0) with 0%Q.
      assert (Hden : ~ (0 + strength_ st == 0)%Q)
        by (intros Heq; apply Hnz; lra).
      split; [by apply (fdiv_defined (fun x => x)) |].
      assert (Heq : ((0 * discount_ st + strength_ st) * p0 / (0 + strength_ st)
                     == p0)%Q) by (field; lra).
      rewrite Heq. done.
    - assert (Hn1 : 1 <= num_customers_ st) by lia.
      pose proof (invariants_tables_pos st Hinv Hn1) as Ht1.
      pose proof (to_double_le 1 _ Hn1) as Hqn.
      pose proof (to_double_le 1 _ Ht1) as Hqt.
      change (to_double 1) with 1%Q in Hqn, Hqt.
      assert (Hden : (0 < to_double (num_customers_ st) + strength_ st)%Q)
        by lra.
      assert (Hr : (0 <= (to_double (num_tables_ st) * discount_ st
                          + strength_ st) * p0)%Q).
      { apply Qmult_le_0_compat; [| done]. nra. }
      destruct (dish_locs_ st !! dish) as [loc |] eqn:Hsome.
      + pose proof (inv_occupancy st Hinv dish loc Hsome) as [_ Hle].
        simpl in Hle. pose proof (to_double_le _ _ Hle) as Hqle.
        pose proof (to_double_nonneg (tables loc)) as Hqt0.
        split; [apply (fdiv_defined (fun x => x)); lra |].
        apply Qdiv_nonneg; [nra | done].
      + split; [apply (fdiv_defined (fun x => x)); lra |].
        apply Qdiv_nonneg; done. }
  split; [apply Hexact |]. split; [apply Hexact |].
  intros rnd Hr Hrd Hrs Hmax. by apply prob_rounded_nonneg.
Qed.

Lemma Qdiv_le_pos (a b c : Q) :
  (a <= b)%Q -> (0 < c)%Q -> (a / c <= b / c)%Q.
Proof.
  intros Hab Hc. unfold Qdiv. apply Qmult_le_compat_r; [done |].
  apply Qinv_le_0_compat. lra.
Qed.

Lemma Qdiv_le_neg (a b c : Q) :
  (b <= a)%Q -> (c < 0)%Q -> (a / c <= b / c)%Q.
Proof.
  intros Hab Hc.
  assert (Ha : (a / c == (- a) / (- c))%Q) by (field; lra).
  assert (Hb : (b / c == (- b) / (- c))%Q) by (field; lra).
  rewrite Ha, Hb. apply Qdiv_le_pos; lra.
Qed.

(** X22: whatever the rounding, [prob(dish, p0)] does not decrease when
    [p0] grows: on a restaurant that satisfies the invariants and is not
    both empty and of strength zero, [prob] returns for [p0 <= p0'] two
    numbers in this order. *)
Theorem prob_monotone (rnd : Q -> Q) st dish (p0 p0' : Q) :
  rounding rnd ->
  representable rnd (discount_ st) -> representable rnd (strength_ st) ->
  invariants st -> num_customers_ st <= UINT_MAX ->
  (num_customers_ st = 0 -> ~ (strength_ st == 0)%Q) ->
  (p0 <= p0')%Q ->
  exists w w',
    prob rnd dish p0 st = Some w /\ prob rnd dish p0' st = Some w' /\
    (w <= w')%Q.
Proof.
  intros Hr Hrd Hrs Hinv Hmax Hnz Hle.
  destruct (inv_discount st Hinv) as [Hd0 Hd1].
  pose proof (inv_strength st Hinv) as Hs.
  pose proof (rnd_unsigned rnd Hr (num_customers_ st) Hmax) as Hrn.
  unfold representable in Hrd, Hrs, Hrn.
  assert (Htotal : ~ (rnd (to_double (num_customers_ st) + strength_ st) == 0)%Q).
  { intros Hz. apply (rnd_sum rnd Hr) in Hz; [| done | done].
    destruct (N.eq_dec (num_customers_ st) 0) as [Hzero | Hpos].
    - apply (Hnz Hzero). rewrite Hzero in Hz.
      change (to_double 0) with 0%Q in Hz. lra.
    - pose proof (to_double_le 1 (num_customers_ st) ltac:(lia)) as Hq.
      change (to_double 1) with 1%Q in Hq. lra. }
  unfold prob.
  destruct (N.eq_dec (num_customers_ st) 0) as [Hzero | Hpos].
  - destruct (invariants_empty st Hinv Hzero) as [Hempty Htz].
    specialize (Hnz Hzero).
    rewrite Hempty, lookup_empty. eexists _, _.
    split; [by apply fdiv_defined |]. split; [by apply fdiv_defined |].
    apply (rnd_mono rnd Hr).
    rewrite Hzero, Htz. change (to_double 0) with 0%Q.
    assert (H0 : (rnd (0 * discount_ st) == 0)%Q).
    { rewrite (rnd_proper rnd Hr (0 * discount_ st) 0) by ring.
      by apply rnd_zero. }
    assert (Hsum : (rnd (rnd (0 * discount_ st) + strength_ st)
                    == strength_ st)%Q).
    { rewrite (rnd_proper rnd Hr _ (strength_ st)) by lra. done. }
    assert (Htot : (rnd (0 + strength_ st) == strength_ st)%Q).
    { rewrite (rnd_proper rnd Hr _ (strength_ st)) by lra. done. }
    assert (Hnum : forall p,
               (rnd (rnd (rnd (0 * discount_ st) + strength_ st) * p)
                == rnd (strength_ st * p))%Q).
    { intros p. apply (rnd_proper rnd Hr). by rewrite Hsum. }
    rewrite !Hnum, Htot.
    destruct (Qlt_le_dec 0 (strength_ st)) as [Hspos | Hsneg].
    + apply Qdiv_le_pos; [| done]. apply (rnd_mono rnd Hr). nra.
    + apply Qdiv_le_neg; [| lra]. apply (rnd_mono rnd Hr). nra.
  - assert (Hn1 : 1 <= num_customers_ st) by lia.
    pose proof (invariants_tables_pos st Hinv Hn1) as Ht1.
    pose proof (to_double_le 1 _ Hn1) as Hqn.
    pose proof (to_double_le 1 _ Ht1) as Hqt.
    change (to_double 1) with 1%Q in Hqn, Hqt.
    assert (Hden : (0 < rnd (to_double (num_customers_ st) + strength_ st))%Q).
    { pose proof (rnd_nonneg rnd (to_double (num_customers_ st) + strength_ st)
                    Hr ltac:(lra)) as Hge.
      apply Qle_lt_or_eq in Hge as [Hlt | Heq]; [done |].
      exfalso. apply Htotal. by rewrite <- Heq. }
    assert (Hprod : (rnd (discount_ st)
                     <= rnd (to_double (num_tables_ st) * discount_ st))%Q)
      by (apply (rnd_mono rnd Hr); nra).
    assert (Hrr : (0 <= rnd (rnd (to_double (num_tables_ st) * discount_ st)
                             + strength_ st))%Q)
      by (apply (rnd_nonneg rnd _ Hr); lra).
    assert (Hrp : (rnd (rnd (rnd (to_double (num_tables_ st) * discount_ st)
                             + strength_ st) * p0)
                   <= rnd (rnd (rnd (to_double (num_tables_ st) * discount_ st)
                                + strength_ st) * p0'))%Q)
      by (apply (rnd_mono rnd Hr); nra).
    destruct (dish_locs_ st !! dish) as [loc |] eqn:Hsome.
    + eexists _, _.
      split; [by apply fdiv_defined |]. split; [by apply fdiv_defined |].
      apply (rnd_mono rnd Hr). apply Qdiv_le_pos; [| done].
      apply (rnd_mono rnd Hr). lra.
    + eexists _, _.
      split; [by apply fdiv_defined |]. split; [by apply fdiv_defined |].
      apply (rnd_mono rnd Hr). by apply Qdiv_le_pos.
Qed.

(** X23: whatever the rounding, a dish that is not seated gets the weight
    [0] for [p0 = 0], on a restaurant that satisfies the invariants and is
    not both empty and of strength zero. *)
Theorem prob_unseen_zero (rnd : Q -> Q) st dish :
  rounding rnd ->
  representable rnd (discount_ st) -> representable rnd (strength_ st) ->
  invariants st -> num_customers_ st <= UINT_MAX ->
  (num_customers_ st = 0 -> ~ (strength_ st == 0)%Q) ->
  dish_locs_ st !! dish = None ->
  exists w, prob rnd dish 0 st = Some w /\ (w == 0)%Q.
Proof.
  intros Hr Hrd Hrs Hinv Hmax Hnz Hnone.
  destruct (inv_discount st Hinv) as [Hd0 Hd1].
  pose proof (inv_strength st Hinv) as Hs.
  pose proof (rnd_unsigned rnd Hr (num_customers_ st) Hmax) as Hrn.
  unfold representable in Hrd, Hrs, Hrn.
  assert (Htotal : ~ (rnd (to_double (num_customers_ st) + strength_ st) == 0)%Q).
  { intros Hz. apply (rnd_sum rnd Hr) in Hz; [| done | done].
    destruct (N.eq_dec (num_customers_ st) 0) as [Hzero | Hpos].
    - apply (Hnz Hzero). rewrite Hzero in Hz.
      change (to_double 0) with 0%Q in Hz. lra.
    - pose proof (to_double_le 1 (num_customers_ st) ltac:(lia)) as Hq.
      change (to_double 1) with 1%Q in Hq. lra. }
  unfold prob. rewrite Hnone. eexists. split; [by apply fdiv_defined |].
  set (r := rnd (rnd (to_double (num_tables_ st) * discount_ st)
                 + strength_ st)%Q).
  set (total := rnd (to_double (num_customers_ st) + strength_ st)%Q) in *.
  assert (Hnum : (rnd (r * 0) == 0)%Q).
  { rewrite (rnd_proper rnd Hr (r * 0) 0) by ring. by apply rnd_zero. }
  assert (Hq : (rnd (r * 0) / total == 0)%Q).
  { rewrite Hnum. by field. }
  rewrite (rnd_proper rnd Hr _ 0 Hq). by apply rnd_zero.
Qed.

(** On a finite strength [prob_x] is [prob] without rounding: the same
    weight when [prob] returns one, and no finite value when it does
    not. *)
Lemma prob_x_finite st dish (p0 : Q) :
  match prob no_rounding dish p0 st with
  | Some w => prob_x dish p0 (XFin (strength_ st)) st = XFin w
  | None => forall q, prob_x dish p0 (XFin (strength_ st)) st <> XFin q
  end.
Proof.
  unfold prob, prob_x, fdiv, no_rounding.
  destruct (dish_locs_ st !! dish) as [loc |]; simpl;
    destruct (Qeq_bool (to_double (num_customers_ st) + strength_ st) 0);
    try done;
    intros q; match goal with
              | |- context [Qeq_bool ?a 0] => by destruct (Qeq_bool a 0), (Qlt_bool 0 a)
              end.
Qed.


End Probability.

(** ** Values of [lgamma] *)

Lemma seq_limit_cv (u : nat -> R) (l : R) : Un_cv u l -> seq_limit u = Some l.
Proof.
  intros Hl. unfold seq_limit.
  destruct (excluded_middle_informative (exists l0, Un_cv u l0)) as [Hcv | Hno].
  - f_equal. destruct (constructive_indefinite_description _ Hcv) as [l' Hl'].
    simpl. by apply (UL_sequence u).
  - exfalso. apply Hno. by exists l.
Qed.

Lemma lgamma_cv (x l : R) :
  (0 < x)%R -> Un_cv (gauss_term x) l -> lgamma x = Some l.
Proof.
  intros Hx Hl. unfold lgamma.
  destruct (excluded_middle_informative (exists k : nat, x = (- INR k)%R))
    as [[k Hk] | _].
  - pose proof (pos_INR k). Lra.lra.
  - by apply seq_limit_cv.
Qed.

Lemma ln_one_plus_le (y : R) : (0 <= y)%R -> (ln (1 + y) <= y)%R.
Proof.
  intros Hy. destruct (Req_dec y 0) as [-> | Hne].
  - rewrite Rplus_0_r, ln_1. Lra.lra.
  - left. rewrite <- (ln_exp y) at 2.
    apply ln_increasing; [Lra.lra | by apply exp_ineq1].
Qed.

(** [ln n - ln (n + c)] tends to [0]. *)
Lemma ln_ratio_cv (c : R) :
  (0 <= c)%R -> Un_cv (fun n => (ln (INR n) - ln (INR n + c))%R) 0.
Proof.
  intros Hc eps Heps.
  destruct (archimed_cor1 (eps / (c + 1))) as (N0 & HN0 & Hpos).
  { apply Rdiv_lt_0_compat; Lra.lra. }
  exists N0. intros n Hn.
  assert (Hn0 : (0 < INR N0)%R) by (apply lt_0_INR; lia).
  assert (Hle : (INR N0 <= INR n)%R) by (apply le_INR; lia).
  assert (Hnpos : (0 < INR n)%R) by Lra.lra.
  assert (Hinv : (/ INR n <= / INR N0)%R) by (by apply Rinv_le_contravar).
  assert (Heq : (ln (INR n + c) - ln (INR n) = ln (1 + c * / INR n))%R).
  { replace (1 + c * / INR n)%R with ((INR n + c) * / INR n)%R
      by (field; Lra.lra).
    rewrite ln_mult, ln_Rinv; [Lra.lra | done | Lra.lra |].
    by apply Rinv_0_lt_compat. }
  assert (Hy : (0 <= c * / INR n)%R).
  { apply Rmult_le_pos; [done |]. left. by apply Rinv_0_lt_compat. }
  pose proof (ln_one_plus_le _ Hy) as Hln.
  assert (Hge : (0 <= ln (1 + c * / INR n))%R).
  { rewrite <- ln_1. destruct (Req_dec (c * / INR n) 0) as [-> | Hne].
    - rewrite Rplus_0_r. Lra.lra.
    - left. apply ln_increasing; Lra.lra. }
  assert (Hsmall : (c * / INR n < eps)%R).
  { assert (Hc1 : (c * / INR n <= c * / INR N0)%R)
      by (by apply Rmult_le_compat_l).
    assert (Hc2 : (c * / INR N0 <= (c + 1) * / INR N0)%R).
    { apply Rmult_le_compat_r; [| Lra.lra]. left. by apply Rinv_0_lt_compat. }
    assert (Hc3 : ((c + 1) * / INR N0 < eps)%R).
    { pose proof (Rmult_lt_compat_l (c + 1) _ _ ltac:(Lra.lra) HN0) as Hm.
      replace ((c + 1) * (eps / (c + 1)))%R with eps in Hm by (field; Lra.lra).
      done. }
    Lra.lra. }
  unfold R_dist. rewrite Rminus_0_r, Rabs_left1; Lra.lra.
Qed.

Lemma gauss_term_one (n : nat) :
  gauss_term 1 n = (ln (INR n) - ln (INR n + 1))%R.
Proof.
  unfold gauss_term.
  assert (Hsum : sum_f_R0 (fun k => ln (Rabs (1 + INR k))) n
                 = ln (INR (fact (S n)))).
  { induction n as [| n IH].
    - simpl. rewrite Rplus_0_r, Rabs_R1. done.
    - rewrite tech5, IH. rewrite Rabs_pos_eq by (pose proof (pos_INR (S n)); Lra.lra).
      replace (1 + INR (S n))%R with (INR (S (S n))) by (rewrite (S_INR (S n)); Lra.lra).
      replace (fact (S (S n))) with ((S (S n)) * fact (S n))%nat by done.
      rewrite mult_INR, ln_mult; [Lra.lra | apply lt_0_INR; lia | apply INR_fact_lt_0]. }
  rewrite Hsum.
  replace (fact (S n)) with ((S n) * fact n)%nat by done.
  rewrite mult_INR, ln_mult; [| apply lt_0_INR; lia | apply INR_fact_lt_0].
  rewrite S_INR. Lra.lra.
Qed.

Lemma gauss_term_succ (x : R) (n : nat) :
  (0 < x)%R ->
  gauss_term (x + 1) n
  = (gauss_term x n + ln x + (ln (INR n) - ln (INR n + (x + 1))))%R.
Proof.
  intros Hx. unfold gauss_term.
  assert (Hsum : sum_f_R0 (fun k => ln (Rabs (x + 1 + INR k))) n
                 = (sum_f_R0 (fun k => ln (Rabs (x + INR k))) n
                    - ln x + ln (INR n + (x + 1)))%R).
  { induction n as [| n IH].
    - simpl. rewrite !Rplus_0_r, Rplus_0_l.
      rewrite !Rabs_pos_eq by Lra.lra. Lra.lra.
    - rewrite !tech5, IH. pose proof (pos_INR n) as Hn.
      rewrite !S_INR. rewrite !Rabs_pos_eq by Lra.lra.
      replace (x + (INR n + 1))%R with (INR n + (x + 1))%R by Lra.lra.
      replace (x + 1 + (INR n + 1))%R with (INR n + 1 + (x + 1))%R by Lra.lra.
      Lra.lra. }
  rewrite Hsum. Lra.lra.
Qed.

Lemma gauss_cv_succ (x l : R) :
  (0 < x)%R -> Un_cv (gauss_term x) l ->
  Un_cv (gauss_term (x + 1)) (ln x + l).
Proof.
  intros Hx Hl eps Heps.
  assert (Hhalf : (0 < eps / 2)%R) by Lra.lra.
  destruct (Hl _ Hhalf) as [N1 HN1].
  destruct (ln_ratio_cv (x + 1) ltac:(Lra.lra) _ Hhalf) as [N2 HN2].
  exists (Nat.max N1 N2). intros n Hn.
  specialize (HN1 n ltac:(lia)). specialize (HN2 n ltac:(lia)).
  rewrite gauss_term_succ by done.
  unfold R_dist in *. rewrite Rminus_0_r in HN2.
  replace (gauss_term x n + ln x + (ln (INR n) - ln (INR n + (x + 1)))
           - (ln x + l))%R
    with ((gauss_term x n - l) + (ln (INR n) - ln (INR n + (x + 1))))%R
    by Lra.lra.
  eapply Rle_lt_trans; [apply Rabs_triang |]. Lra.lra.
Qed.

Lemma gauss_cv_one : Un_cv (gauss_term 1) 0.
Proof.
  intros eps Heps. destruct (ln_ratio_cv 1 ltac:(Lra.lra) eps Heps) as [N0 HN0].
  exists N0. intros n Hn. rewrite gauss_term_one. by apply HN0.
Qed.

Lemma lgamma_one : lgamma 1 = Some 0%R.
Proof. apply lgamma_cv; [Lra.lra | apply gauss_cv_one]. Qed.

Lemma lgamma_two : lgamma 2 = Some 0%R.
Proof.
  apply lgamma_cv; [Lra.lra |].
  replace 2%R with (1 + 1)%R by Lra.lra.
  replace 0%R with (ln 1 + 0)%R by (rewrite ln_1; Lra.lra).
  apply gauss_cv_succ; [Lra.lra | apply gauss_cv_one].
Qed.

Lemma lgamma_three : lgamma 3 = Some (ln 2).
Proof.
  apply lgamma_cv; [Lra.lra |].
  replace 3%R with (2 + 1)%R by Lra.lra.
  replace (ln 2) with (ln 2 + (ln 1 + 0))%R by (rewrite ln_1; Lra.lra).
  apply gauss_cv_succ; [Lra.lra |].
  replace 2%R with (1 + 1)%R at 1 by Lra.lra.
  apply gauss_cv_succ; [Lra.lra | apply gauss_cv_one].
Qed.

(** ** The likelihood *)

Lemma fmul_None_r (x : double) : (x * None)%D = None.
Proof. by destruct x. Qed.

Lemma flog_pos (a : R) : (0 < a)%R -> flog (Some a) = Some (ln a).
Proof. intros Ha. unfold flog. by destruct (Rlt_dec 0 a). Qed.

Lemma flog_zero : flog (of_Q 0) = None.
Proof.
  unfold flog, of_Q. rewrite RMicromega.Q2R_0.
  destruct (Rlt_dec 0 0) as [Hlt | _]; [Lra.lra | done].
Qed.

Lemma log_beta_density_zero (alpha beta : double) :
  log_beta_density (of_Q 0) alpha beta = None.
Proof.
  unfold log_beta_density. by rewrite flog_zero, fmul_None_r.
Qed.

Section LikelihoodProofs.

Context {Dish : Type} `{Countable Dish}.

Implicit Types (st : crp Dish) (eng : Engine).

(** Without priors the contribution of the priors is zero. *)
Lemma hyperprior_lp_no_prior (d s : Q) st :
  has_discount_prior st = false -> has_strength_prior st = false ->
  hyperprior_lp d s st = Some 0%R.
Proof. intros Hd Hs. unfold hyperprior_lp. by rewrite Hd, Hs. Qed.

(** On an empty restaurant, a call of [log_likelihood] that returns gives
    the contribution of the priors. *)
Lemma log_likelihood_empty st (v : R) :
  num_customers_ st = 0 -> log_likelihood st = Returned v ->
  hyperprior_lp (discount_ st) (strength_ st) st = Some v.
Proof.
  intros Hzero. unfold log_likelihood, log_likelihood_at. rewrite Hzero.
  destruct (hyperprior_lp _ _ st) as [lp0 |]; [| done].
  destruct (Rle_dec lp0 0); [| done]. simpl. by intros [= ->].
Qed.

(** On an empty restaurant, [log_likelihood] returns the contribution of
    the priors when it is a number that is not positive. *)
Lemma log_likelihood_empty_returns st (v : R) :
  num_customers_ st = 0 ->
  hyperprior_lp (discount_ st) (strength_ st) st = Some v -> (v <= 0)%R ->
  log_likelihood st = Returned v.
Proof.
  intros Hzero Hlp Hv. unfold log_likelihood, log_likelihood_at.
  rewrite Hzero, Hlp. by destruct (Rle_dec v 0).
Qed.

(** A prior on a discount that is zero stops [log_likelihood]. *)
Lemma log_likelihood_prior_at_zero st :
  has_discount_prior st = true -> discount_ st = 0%Q ->
  log_likelihood st = Aborted st.
Proof.
  intros Hprior Hd. unfold log_likelihood, log_likelihood_at, hyperprior_lp.
  rewrite Hprior, Hd, log_beta_density_zero.
  by destruct (has_strength_prior st).
Qed.

(** A positive contribution of the priors stops [log_likelihood]. *)
Lemma log_likelihood_positive_prior st (lp : R) :
  hyperprior_lp (discount_ st) (strength_ st) st = Some lp -> (0 < lp)%R ->
  log_likelihood st = Aborted st.
Proof.
  intros Hlp Hpos. unfold log_likelihood, log_likelihood_at. rewrite Hlp.
  destruct (Rle_dec lp 0) as [Hle | _]; [Lra.lra | done].
Qed.

(** C9: for every restaurant with at least one hyperprior and no
    customers, [resample_hyperparameters] returns the restaurant as it
    was given (hyperparameters, priors, counters and [dishState]) and the
    random source as it was given, whatever the slice sampler. *)
Theorem resample_empty_noop (sampler : slice_sampler) st eng
  (nloop niterations : N) :
  has_discount_prior st || has_strength_prior st = true ->
  num_customers_ st = 0 ->
  resample_hyperparameters sampler eng nloop niterations st
  = Returned (st, eng).
Proof.
  intros Hprior Hzero. unfold resample_hyperparameters, num_customers.
  by rewrite Hprior, Hzero.
Qed.

End LikelihoodProofs.

(** ** The examples *)

Section Reachability.

Context {Dish : Type} `{Countable Dish}.

Lemma reachable_invariants (n : N) (st : crp Dish) :
  reachable_in n st -> n <= UINT_MAX ->
  invariants st /\ num_customers_ st <= UINT_MAX.
Proof.
  intros Hreach Hn.
  destruct (reachable_consistent n st Hreach Hn) as [Hcons _].
  split; [by apply consistent_invariants | apply (cons_range st Hcons)].
Qed.

End Reachability.

Lemma fresh_dp_new : crp_new 0 1 = Returned fresh_dp.
Proof. reflexivity. Qed.

Lemma one_table_first : (increment 0 0 [] fresh_dp).1.2 = one_table 1.
Proof. reflexivity. Qed.

(** A customer of dish [0] who comes with [p0 = 0] and the draw [1/2]
    shares the one table. *)
Lemma one_table_next (k : N) :
  1 <= k ->
  (increment 0 0 [(1 # 2)%Q] (one_table k)).1.2 = one_table (uincr k).
Proof.
  intros Hk. unfold increment, subscript, one_table. simpl dish_locs_.
  rewrite lookup_singleton_eq. simpl customers.
  destruct (N.eqb_spec k 0) as [H0 | _]; [lia |]. simpl negb. cbv iota.
  unfold sample_bernoulli.
  change (sample_uniform01 [(1 # 2)%Q]) with ((1 # 2)%Q, @nil Q).
  pose proof (to_double_le 1 k Hk) as Hq. change (to_double 1) with 1%Q in Hq.
  simpl num_tables_. simpl strength_. simpl discount_. simpl tables.
  cbv beta iota zeta.
  assert (Hb : Qlt_bool ((1 + to_double 1 * 0) * 0)
                 ((1 # 2) * ((1 + to_double 1 * 0) * 0
                             + (to_double k - to_double 1 * 0))) = true).
  { apply Qlt_bool_iff. change (to_double 1) with 1%Q. lra. }
  rewrite Hb. unfold share_table. simpl sample_uniform01. cbv beta iota zeta.
  simpl h. simpl customers. simpl tables. unfold pick_share.
  assert (Hb2 : Qlt_bool ((to_double k - 0 * to_double 1) * 0)
                  ((to_double k - 0) * to_double 1) = true).
  { apply Qlt_bool_iff. change (to_double 1) with 1%Q. lra. }
  rewrite Hb2.
  unfold h_decr. rewrite N.eqb_refl. change (udecr 1 =? 0) with true. cbv iota.
  unfold h_incr. simpl. rewrite insert_singleton_eq. reflexivity.
Qed.

(** After [j + 1] such customers the table holds [j + 1] of them, counted
    modulo [2^32]. *)
Lemma one_table_reachable (j : N) :
  j <= UINT_MAX -> reachable_in (j + 1) (one_table (wrap (j + 1))).
Proof.
  induction j as [| j IH] using N.peano_ind; intros Hj.
  - change (one_table (wrap (0 + 1))) with (one_table 1).
    rewrite <- one_table_first. apply (reach_increment 0).
    apply (reach_new 0 1). reflexivity.
  - assert (Hw : wrap (j + 1) = j + 1) by (apply wrap_small; lia).
    rewrite Hw in IH.
    replace (one_table (wrap (N.succ j + 1))) with (one_table (uincr (j + 1))).
    2:{ unfold uincr. f_equal. f_equal. lia. }
    rewrite <- one_table_next by lia.
    apply (reach_increment (N.succ j)). replace (N.succ j) with (j + 1) by lia.
    apply IH. lia.
Qed.

(** The restaurant with [2^32 - 1] customers of dish [0] at one table is
    reached without an [increment] at [numCustomers = 2^32 - 1]. *)
Lemma one_table_full_nowrap : reachable_nowrap (one_table 4294967295).
Proof.
  apply (reachable_in_nowrap 4294967295); [| reflexivity].
  apply (one_table_reachable 4294967294). by vm_compute.
Qed.

(** C1, witness: two customers seated in [crp(0.0, 1.0)]. *)
Lemma counters_are_sums_witness :
  let st := (increment 1 1 [] (increment 0 1 [] fresh_dp).1.2).1.2 in
  reachable_nowrap st /\
  num_customers_ st = sum_customers (dish_locs_ st) /\
  num_tables_ st = sum_tables (dish_locs_ st) /\
  num_tables_ st <= num_customers_ st.
Proof.
  intros st.
  assert (Hreach : reachable_nowrap st).
  { apply nowrap_increment; [| reflexivity].
    apply nowrap_increment; [| reflexivity].
    apply (nowrap_new 0 1). reflexivity. }
  split; [exact Hreach |].
  exact (counters_are_sums st Hreach).
Defined.

(** C1, counterexample: [2^32] calls of [increment] on dish [0] of
    [crp(0.0, 1.0)], each with [p0 = 0], leave one table and a customer
    counter that has wrapped around to [0].  The first [2^32 - 1] calls
    reach the restaurant with [2^32 - 1] customers at one table without
    wrap-around; the last call, made at [numCustomers = 2^32 - 1], is the
    one that breaks [numTables <= numCustomers]. *)
Lemma counters_wrap_counterexample :
  reachable_in 4294967296 (one_table 0) /\
  num_tables_ (one_table 0) = 1 /\
  num_customers_ (one_table 0) = 0 /\
  ~ (num_tables_ (one_table 0) <= num_customers_ (one_table 0)) /\
  reachable_nowrap (one_table 4294967295) /\
  num_customers_ (one_table 4294967295) = UINT_MAX /\
  (increment 0 0 [(1 # 2)%Q] (one_table 4294967295)).1.2 = one_table 0.
Proof.
  split; [apply (one_table_reachable 4294967295); reflexivity |].
  split; [reflexivity |]. split; [reflexivity |]. split; [simpl; lia |].
  split; [exact one_table_full_nowrap |]. split; [reflexivity |].
  rewrite one_table_next by (by vm_compute). reflexivity.
Qed.

(** C2, witness: the first customer of [crp(0.0, 1.0)]. *)
Lemma increment_effect_witness :
  (increment 0 1 [] fresh_dp).1.1 = 1%Z /\
  num_customers_ (increment 0 1 [] fresh_dp).1.2 = num_customers_ fresh_dp + 1 /\
  seated 0 (increment 0 1 [] fresh_dp).1.2 = seated 0 fresh_dp + 1.
Proof.
  assert (Hlt : 0 < UINT_MAX) by reflexivity.
  destruct (increment_effect fresh_dp 0 1 []) as (Hnew & _ & Hn & Hc & _).
  split; [apply Hnew; reflexivity |].
  split; [exact (Hn Hlt) | exact (Hc Hlt)].
Defined.

(** C2, counterexample: in the restaurant reached by [2^32 - 1] calls of
    [increment], which holds [2^32 - 1] customers of dish [0] at one
    table, seating a customer of the new dish [1] takes [numCustomers]
    from [4294967295] to [0]. *)
Lemma increment_wraps_counterexample :
  reachable_in 4294967295 (one_table 4294967295) /\
  (0 <= 1)%Q /\
  seated 1 (one_table 4294967295) = 0 /\
  (increment 1 1 [] (one_table 4294967295)).1.1 = 1%Z /\
  num_customers_ (one_table 4294967295) = 4294967295 /\
  num_customers_ (increment 1 1 [] (one_table 4294967295)).1.2 = 0 /\
  num_customers_ (increment 1 1 [] (one_table 4294967295)).1.2
  <> num_customers_ (one_table 4294967295) + 1.
Proof.
  split; [apply (one_table_reachable 4294967294); by vm_compute |].
  split; [by vm_compute |].
  repeat split; by vm_compute.
Qed.

(** C3, witness: the only customer of [crp(0.0, 1.0)] leaves. *)
Lemma decrement_last_customer_witness :
  let st := (increment 0 1 [] fresh_dp).1.2 in
  invariants st /\ counters_in_range st /\ seated 0 st = 1 /\
  exists st',
    decrement 0 [] st = Returned ((-1)%Z, st', []) /\
    dish_locs_ st' = delete 0 (dish_locs_ st) /\
    dish_locs_ st' !! 0 = None /\
    num_tables_ st' + 1 = num_tables_ st /\
    num_customers_ st' + 1 = num_customers_ st.
Proof.
  intros st.
  assert (Hreach : reachable_in 1 st).
  { apply (reach_increment 0), (reach_new 0 1). reflexivity. }
  destruct (reachable_invariants 1 st Hreach) as [Hinv _];
    [vm_compute; discriminate |].
  assert (Hrange : counters_in_range st)
    by (split; vm_compute; discriminate).
  assert (Hone : seated 0 st = 1) by reflexivity.
  split; [exact Hinv |]. split; [exact Hrange |]. split; [exact Hone |].
  exact (decrement_last_customer st 0 [] Hinv Hrange Hone).
Defined.

(** C4, witness: a customer of dish [0] comes to [crp(0.0, 1.0)] and
    leaves. *)
Lemma increment_decrement_fresh_witness :
  counters_in_range fresh_dp /\ dish_locs_ fresh_dp !! 0 = None /\
  exists st',
    decrement 0 [] (increment 0 1 [] fresh_dp).1.2
    = Returned ((-1)%Z, st', []) /\
    num_tables_ st' = num_tables_ fresh_dp /\
    num_customers_ st' = num_customers_ fresh_dp /\
    dish_locs_ st' !! 0 = None /\
    st' = fresh_dp.
Proof.
  assert (Hnone : dish_locs_ fresh_dp !! 0 = None) by reflexivity.
  assert (Hrange : counters_in_range fresh_dp)
    by (split; vm_compute; discriminate).
  split; [exact Hrange |]. split; [exact Hnone |].
  exact (increment_decrement_fresh fresh_dp 0 1 [] [] Hrange Hnone).
Defined.

(** C5, witness: the weight of dish [0] after its first customer,
    without rounding and with the results rounded down to multiples of
    [1/1024]. *)
Lemma prob_weight_witness :
  let st := (increment 0 1 [] fresh_dp).1.2 in
  invariants st /\ (0 <= 1 # 3)%Q /\
  prob no_rounding 0 (1 # 3) st = Some (predictive_weight 0 (1 # 3) st) /\
  (0 <= predictive_weight 0%N (1 # 3) st)%Q /\
  rounding coarse_rounding /\
  exists w, prob coarse_rounding 0 (1 # 3) st = Some w /\ (0 <= w)%Q.
Proof.
  intros st.
  assert (Hreach : reachable_in 1 st).
  { apply (reach_increment 0), (reach_new 0 1). reflexivity. }
  destruct (reachable_invariants 1 st Hreach) as [Hinv Hmax];
    [vm_compute; discriminate |].
  assert (Hp0 : (0 <= 1 # 3)%Q) by (vm_compute; discriminate).
  assert (Hnz : num_customers_ st = 0 -> ~ (strength_ st == 0)%Q)
    by (intros Hz; vm_compute in Hz; discriminate).
  destruct (prob_weight st 0 (1 # 3) Hinv Hp0 Hnz) as (Hprob & Hpos & Hrnd).
  split; [exact Hinv |]. split; [exact Hp0 |].
  split; [exact Hprob |]. split; [exact Hpos |].
  split; [exact coarse_rounding_rounding |].
  apply (Hrnd coarse_rounding coarse_rounding_rounding);
    [reflexivity | reflexivity | exact Hmax].
Defined.

(** C5, counterexample: in [crp(0.5, 0.0)] as constructed, which satisfies
    the invariants, [prob(dish, 1.0)] is the quotient [0 / 0], which is NaN
    and not a weight.  The strength [+inf] passes [check_hyperparameters]
    as well, and [prob(dish, 1.0)] on the empty restaurant of discount
    [0.5] is then the quotient of two infinities, NaN again.  With
    [F = int], [prob(dish, 1)] for the one customer of [crp(0.5, 1.0)] is
    [(0 + 1) / 2 = 0], where the formula gives [1]. *)
Lemma prob_not_a_weight_counterexample :
  crp_new (1 # 2) 0 = Returned fresh_zero_strength /\
  invariants fresh_zero_strength /\
  (0 <= 1)%Q /\
  prob no_rounding 0 1 fresh_zero_strength = None /\
  (forall rnd, rounding rnd -> prob rnd 0 1 fresh_zero_strength = None) /\
  prob_x 0 1 (XFin 0) fresh_zero_strength = XNaN /\
  check_hyperparameters_x (XFin (1 # 2)) XPInf = true /\
  prob_x 0 1 XPInf fresh_zero_strength = XNaN /\
  invariants (increment 0 1 [] fresh_half).1.2 /\
  prob_int 0 1 (increment 0 1 [] fresh_half).1.2 = Some 0%Z /\
  (predictive_weight 0%N 1 (increment 0%N 1 [] fresh_half).1.2 == 1)%Q.
Proof.
  assert (Hnew : crp_new (1 # 2) 0 = Returned fresh_zero_strength)
    by reflexivity.
  split; [exact Hnew |].
  split; [apply (reachable_invariants 0);
            [by apply (reach_new (1 # 2) 0) | by vm_compute] |].
  split; [by vm_compute |]. split; [reflexivity |].
  split.
  { intros rnd Hr. unfold prob, fdiv. simpl. rewrite lookup_empty.
    assert (Hz : (rnd (to_double 0 + 0) == 0)%Q).
    { rewrite (rnd_proper rnd Hr (to_double 0 + 0) 0) by reflexivity.
      by apply rnd_zero. }
    apply Qeq_bool_iff in Hz. by rewrite Hz. }
  split; [reflexivity |]. split; [reflexivity |]. split; [reflexivity |].
  split; [| split; [reflexivity | by vm_compute]].
  apply (reachable_invariants 1); [| by vm_compute].
  apply (reach_increment 0). by apply (reach_new (1 # 2) 1).
Qed.

(** C6, evaluated at the failing input: [crp(2, 2, 1, 1, 0.0, 1.0)] as
    constructed satisfies the invariants, and [log_likelihood()] on it
    does not return: the Beta log-density holds [ln 0], and the call stops
    at [assert(std::isfinite(lp))]. *)
Theorem log_likelihood_discount_zero_aborts :
  crp_new_priors (Some 2%Q) (Some 2%Q) (Some 1%Q) (Some 1%Q) 0 1
  = Returned fresh_beta_dp /\
  reachable_in 0 fresh_beta_dp /\
  invariants fresh_beta_dp /\
  log_likelihood fresh_beta_dp = Aborted fresh_beta_dp.
Proof.
  assert (Hnew : crp_new_priors (Some 2%Q) (Some 2%Q) (Some 1%Q) (Some 1%Q) 0 1
                 = Returned fresh_beta_dp) by reflexivity.
  assert (Hreach : reachable_in 0 fresh_beta_dp)
    by (by eapply reach_new_priors).
  split; [exact Hnew |]. split; [exact Hreach |]. split.
  - apply (reachable_invariants 0); [exact Hreach | by vm_compute].
  - by apply log_likelihood_prior_at_zero.
Qed.

Lemma ln_seven_eighths : (- / 7 <= ln (1 - / 8))%R.
Proof.
  replace (1 - / 8)%R with (/ (1 + / 7))%R by (field_simplify; Lra.lra).
  rewrite ln_Rinv by Lra.lra.
  pose proof (ln_one_plus_le (/ 7) ltac:(Lra.lra)). Lra.lra.
Qed.

(** The contribution of the priors of [crp(1, 2, 1, 1, 0.125, 0.125)]. *)
Lemma hyperprior_dense :
  hyperprior_lp (1 # 8) (1 # 8) fresh_dense_prior
  = Some (ln (1 - / 8) + ln 2 - / 4)%R.
Proof.
  unfold hyperprior_lp, fresh_dense_prior, has_discount_prior,
    has_strength_prior, of_param, of_Q, of_R. cbn [discount_prior_strength_
    discount_prior_beta_ strength_prior_shape_ strength_prior_rate_].
  assert (H1 : Q2R 1 = 1%R) by (unfold Q2R; simpl; Lra.lra).
  assert (H2 : Q2R 2 = 2%R) by (unfold Q2R; simpl; Lra.lra).
  assert (H8 : Q2R (1 # 8) = (/ 8)%R) by (unfold Q2R; simpl; Lra.lra).
  rewrite H1, H2, H8.
  unfold log_beta_density, log_gamma_density, of_R.
  cbn [fadd fsub fmul flgamma].
  rewrite !flog_pos by Lra.lra.
  replace (1 + 2)%R with 3%R by Lra.lra.
  rewrite lgamma_one, lgamma_two, lgamma_three.
  cbn [fadd fsub fmul]. f_equal. rewrite ln_1.
  replace (/ 8 + / 8)%R with (/ 4)%R by Lra.lra. Lra.lra.
Qed.

(** C7, evaluated at the failing input: for the valid hyperparameters
    [discount = strength = 0.125] and the positive prior parameters of
    [crp(1, 2, 1, 1, 0.125, 0.125)], the contribution of the priors is
    [ln (7/8) + ln 2 - 1/4], which is positive, and [log_likelihood()]
    stops at [assert(lp <= 0.0)]. *)
Theorem hyperprior_positive_aborts :
  crp_new_priors (Some 1%Q) (Some 2%Q) (Some 1%Q) (Some 1%Q) (1 # 8) (1 # 8)
  = Returned fresh_dense_prior /\
  invariants fresh_dense_prior /\
  (exists lp : R,
     hyperprior_lp (1 # 8) (1 # 8) fresh_dense_prior = Some lp /\
     (0 < lp)%R) /\
  log_likelihood fresh_dense_prior = Aborted fresh_dense_prior.
Proof.
  assert (Hpos : (0 < ln (1 - / 8) + ln 2 - / 4)%R).
  { pose proof ln_seven_eighths. pose proof ln_lt_2. Lra.lra. }
  split; [reflexivity |]. split.
  { apply (reachable_invariants 0); [| by vm_compute].
    by apply (reach_new_priors (Some 1%Q) (Some 2%Q) (Some 1%Q) (Some 1%Q)
                (1 # 8) (1 # 8)). }
  split.
  - eexists. split; [apply hyperprior_dense | exact Hpos].
  - eapply log_likelihood_positive_prior; [apply hyperprior_dense | exact Hpos].
Qed.

(** C9, witness: [crp(1, 1, 1, 1)] as constructed has both priors and no
    customers. *)
Lemma resample_empty_noop_witness :
  has_discount_prior fresh_default || has_strength_prior fresh_default = true /\
  num_customers_ fresh_default = 0 /\
  resample_hyperparameters still_sampler [(1 # 3)%Q] 5 10 fresh_default
  = Returned (fresh_default, [(1 # 3)%Q]).
Proof.
  assert (Hprior : has_discount_prior fresh_default
                   || has_strength_prior fresh_default = true) by reflexivity.
  assert (Hzero : num_customers_ fresh_default = 0) by reflexivity.
  split; [exact Hprior |]. split; [exact Hzero |].
  exact (resample_empty_noop still_sampler fresh_default [(1 # 3)%Q] 5 10
           Hprior Hzero).
Defined.

(** C10, witness: [decrement] on dish [0] of the empty [crp(0.0, 1.0)]. *)
Lemma decrement_absent_inserts_witness :
  dish_locs_ fresh_dp !! 0 = None /\
  exists st',
    decrement 0 [] fresh_dp = Aborted st' /\
    dish_locs_ st' = <[0 := new_table_manager]> (dish_locs_ fresh_dp) /\
    seated 0 st' = 0 /\
    is_Some (dish_locs_ st' !! 0) /\
    ~ map_Forall (fun _ loc => 1 <= customers loc) (dish_locs_ st') /\
    ~ invariants st' /\
    st' <> fresh_dp.
Proof.
  assert (Hnone : dish_locs_ fresh_dp !! 0 = None) by reflexivity.
  split; [exact Hnone |].
  exact (decrement_absent_inserts fresh_dp 0 [] Hnone).
Defined.

(** ** Construction, hyperparameters and [clear] *)

Section MembersProofs.

Context {Dish : Type} `{Countable Dish}.

Implicit Types (st : crp Dish) (dish : Dish) (eng : Engine).

Lemma check_hyperparameters_valid st :
  valid_hyperparameters (discount_ st) (strength_ st) ->
  check_hyperparameters st = Returned st.
Proof.
  intros (Hd0 & Hd1 & Hs). unfold check_hyperparameters.
  assert (Hlo : Qlt_bool (discount_ st) 0 = false)
    by (by apply Qlt_bool_false_iff).
  assert (Hhi : Qle_bool 1 (discount_ st) = false).
  { destruct (Qle_bool 1 (discount_ st)) eqn:Hb; [| done].
    apply Qle_bool_iff in Hb. lra. }
  assert (Hst : Qle_bool (strength_ st) (- discount_ st) = false).
  { destruct (Qle_bool (strength_ st) (- discount_ st)) eqn:Hb; [| done].
    apply Qle_bool_iff in Hb. lra. }
  by rewrite Hlo, Hhi, Hst.
Qed.

Lemma check_hyperparameters_cases st :
  check_hyperparameters st = Returned st \/
  check_hyperparameters st = Aborted st.
Proof.
  unfold check_hyperparameters.
  destruct (Qlt_bool _ _ || Qle_bool _ _); [by right |].
  destruct (Qle_bool _ _); [by right | by left].
Qed.

Lemma check_hyperparameters_invalid st :
  ~ valid_hyperparameters (discount_ st) (strength_ st) ->
  check_hyperparameters st = Aborted st.
Proof.
  intros Hbad. destruct (check_hyperparameters_cases st) as [Hret | Hab];
    [| done].
  exfalso. apply Hbad.
  apply check_hyperparameters_returned in Hret as (_ & Hd0 & Hd1 & Hs).
  by repeat split.
Qed.

(** On finite doubles [check_hyperparameters] returns exactly for the
    valid pairs. *)
Lemma check_hyperparameters_x_finite (d s : Q) :
  check_hyperparameters_x (XFin d) (XFin s) = true <->
  valid_hyperparameters d s.
Proof.
  unfold check_hyperparameters_x, valid_hyperparameters. simpl.
  destruct (Qlt_bool d 0) eqn:Hlo; simpl.
  { apply Qlt_bool_iff in Hlo. split; [done | lra]. }
  apply Qlt_bool_false_iff in Hlo.
  destruct (Qle_bool 1 d) eqn:Hhi.
  { apply Qle_bool_iff in Hhi. split; [done | lra]. }
  assert (Hd1 : (d < 1)%Q).
  { apply Qnot_le_lt. intros Hle. apply Qle_bool_iff in Hle. congruence. }
  destruct (Qle_bool s (- d)) eqn:Hst.
  { apply Qle_bool_iff in Hst. split; [done | lra]. }
  split; [| done]. intros _. repeat split; try done.
  apply Qnot_le_lt. intros Hle. apply Qle_bool_iff in Hle. congruence.
Qed.

(** A NaN discount passes [check_hyperparameters] with every strength. *)
Lemma check_hyperparameters_x_nan_discount (s : xdouble) :
  check_hyperparameters_x XNaN s = true.
Proof. by destruct s. Qed.

(** A NaN strength and the strength [+inf] pass [check_hyperparameters]
    with every finite discount of [0,1). *)
Lemma check_hyperparameters_x_discount_only (d : Q) (s : xdouble) :
  s = XNaN \/ s = XPInf ->
  check_hyperparameters_x (XFin d) s = true <-> (0 <= d)%Q /\ (d < 1)%Q.
Proof.
  intros Hs. unfold check_hyperparameters_x. simpl.
  destruct (Qlt_bool d 0) eqn:Hlo; simpl.
  { apply Qlt_bool_iff in Hlo. split; [done | lra]. }
  apply Qlt_bool_false_iff in Hlo.
  destruct (Qle_bool 1 d) eqn:Hhi.
  { apply Qle_bool_iff in Hhi. split; [done | lra]. }
  assert (Hd1 : (d < 1)%Q).
  { apply Qnot_le_lt. intros Hle. apply Qle_bool_iff in Hle. congruence. }
  by destruct Hs as [-> | ->].
Qed.

(** X1: for a finite discount and a finite strength, both constructors
    return exactly when [0 <= discount < 1] and [strength > -discount],
    and otherwise abort; the prior parameters are not looked at.  The
    restaurant returned is empty, holds the values given, and satisfies
    the data-model invariants.  NaN is not refused: as the comparisons of
    [check_hyperparameters] are false on NaN, the check passes for a NaN
    discount with every strength, and for a NaN strength, as for the
    strength [+inf], with every discount of [0,1). *)
Theorem constructors_check_only_hyperparameters
  (d_strength d_beta c_shape c_rate : option Q) (d c : Q) :
  let st0 : crp Dish :=
    mk_crp 0 0 ∅ d c d_strength d_beta c_shape c_rate in
  crp_new d c
  = crp_new_priors (Dish := Dish) None None None None d c /\
  (check_hyperparameters_x (XFin d) (XFin c) = true <->
   valid_hyperparameters d c) /\
  (valid_hyperparameters d c ->
   crp_new_priors d_strength d_beta c_shape c_rate d c = Returned st0 /\
   invariants st0 /\ counters_in_range st0) /\
  (~ valid_hyperparameters d c ->
   crp_new_priors d_strength d_beta c_shape c_rate d c = Aborted st0) /\
  (forall s : xdouble, check_hyperparameters_x XNaN s = true) /\
  (check_hyperparameters_x (XFin d) XNaN = true <-> (0 <= d)%Q /\ (d < 1)%Q) /\
  (check_hyperparameters_x (XFin d) XPInf = true <-> (0 <= d)%Q /\ (d < 1)%Q).
Proof.
  intros st0. split; [reflexivity |].
  split; [apply check_hyperparameters_x_finite |]. split.
  { intros Hvalid.
    assert (Hret : crp_new_priors d_strength d_beta c_shape c_rate d c
                   = Returned st0)
      by (by apply (check_hyperparameters_valid st0)).
    split; [exact Hret |].
    assert (Hcons : consistent st0)
      by (by apply (consistent_fresh st0 st0)).
    split; [by apply consistent_invariants |].
    split; simpl; by vm_compute. }
  split; [intros Hbad; by apply (check_hyperparameters_invalid st0) |].
  split; [apply check_hyperparameters_x_nan_discount |].
  split; apply check_hyperparameters_x_discount_only; auto.
Qed.

(** X2: for a finite pair, [set_hyperparameters(d, s)] returns exactly
    when the pair is valid; the restaurant returned holds the new pair,
    has the seating and the priors of the one given, and satisfies the
    invariants when that one did.  A pair that is refused is already
    stored when the call aborts.  [set_discount] and [set_strength] are
    the same call with the other hyperparameter kept.  The check is the
    one of the constructors: it lets a NaN discount pass, and a NaN
    strength next to a discount of [0,1). *)
Theorem set_hyperparameters_effect (d s : Q) st :
  set_discount d st = set_hyperparameters d (strength_ st) st /\
  set_strength s st = set_hyperparameters (discount_ st) s st /\
  (valid_hyperparameters d s ->
   exists st',
     set_hyperparameters d s st = Returned st' /\
     discount_ st' = d /\ strength_ st' = s /\
     same_seating st st' /\
     (invariants st -> invariants st')) /\
  (~ valid_hyperparameters d s ->
   exists st',
     set_hyperparameters d s st = Aborted st' /\
     discount_ st' = d /\ strength_ st' = s) /\
  (check_hyperparameters_x (XFin d) (XFin s) = true <->
   valid_hyperparameters d s) /\
  (forall y : xdouble, check_hyperparameters_x XNaN y = true) /\
  (check_hyperparameters_x (XFin d) XNaN = true <-> (0 <= d)%Q /\ (d < 1)%Q).
Proof.
  split; [reflexivity |]. split; [reflexivity |]. split.
  { intros Hvalid. exists (with_hyperparameters st d s).
    split; [by apply check_hyperparameters_valid |].
    split; [done |]. split; [done |]. split; [by repeat split |].
    intros [Hc Ht _ _ Hp Ho]. destruct Hvalid as (Hd0 & Hd1 & Hs).
    by split. }
  split.
  { intros Hbad. exists (with_hyperparameters st d s).
    split; [by apply check_hyperparameters_invalid | done]. }
  split; [apply check_hyperparameters_x_finite |].
  split; [apply check_hyperparameters_x_nan_discount |].
  apply check_hyperparameters_x_discount_only; auto.
Qed.

(** X3: [clear] brings any restaurant with valid hyperparameters, also one
    whose counters have wrapped around or disagree with its dishes, to an
    empty restaurant that satisfies the data-model invariants; the
    hyperparameters and the priors stay. *)
Theorem clear_restores_invariants st :
  valid_hyperparameters (discount_ st) (strength_ st) ->
  invariants (clear st) /\
  counters_in_range (clear st) /\
  same_settings st (clear st) /\
  num_tables (clear st) = 0 /\ num_customers (clear st) = 0 /\
  dishes (clear st) = [] /\
  (forall dish, num_tables_dish dish (clear st) = 0).
Proof.
  intros (Hd0 & Hd1 & Hs).
  split.
  { split; simpl; done. }
  split; [split; simpl; by vm_compute |].
  split; [by repeat split |].
  split; [done |]. split; [done |].
  split; [unfold dishes; simpl; apply map_to_list_empty |].
  intros dish. unfold num_tables_dish. simpl. by rewrite lookup_empty.
Qed.

(** X4: in a restaurant that satisfies the invariants, [num_tables(dish)]
    is at most [num_tables()], and it is [0] exactly for the dishes that
    [dishState] does not hold. *)
Theorem num_tables_dish_bounds st dish :
  invariants st ->
  num_tables_dish dish st <= num_tables st /\
  (num_tables_dish dish st = 0 <-> dish_locs_ st !! dish = None).
Proof.
  intros Hinv. unfold num_tables_dish, num_tables.
  destruct (dish_locs_ st !! dish) as [loc |] eqn:Hsome.
  - pose proof (invariants_dish_le st dish loc Hinv Hsome) as [_ Htle].
    pose proof (inv_present st Hinv dish loc Hsome) as Hc.
    pose proof (inv_occupancy st Hinv dish loc Hsome) as [Ht _].
    simpl in *. specialize (Ht Hc). split; [done |]. split; [lia | done].
  - split; [lia | done].
Qed.

(** X5: [increment] changes nothing but the two counters and the entry of
    its dish: the entries of the other dishes, the hyperparameters and the
    priors are those of the restaurant given. *)
Theorem increment_frame st dish (p0 : Q) eng :
  same_settings st (increment dish p0 eng st).1.2 /\
  forall dish', dish' <> dish ->
    dish_locs_ (increment dish p0 eng st).1.2 !! dish'
    = dish_locs_ st !! dish'.
Proof.
  unfold increment, subscript.
  destruct (dish_locs_ st !! dish) as [loc |] eqn:Hsome.
  - destruct (if negb _ then _ else _) as [[|] eng1].
    + destruct (share_table _ eng1 loc) as [loc' eng2]. simpl.
      split; [by repeat split |]. intros dish' Hne.
      by rewrite lookup_insert_ne.
    + simpl. split; [by repeat split |]. intros dish' Hne.
      by rewrite lookup_insert_ne.
  - simpl. split; [by repeat split |]. intros dish' Hne.
    by rewrite !lookup_insert_ne.
Qed.

(** X6: [decrement], whether it returns or stops at its assertion, leaves
    the entries of the other dishes, the hyperparameters and the priors as
    they are; when it stops the two counters are unchanged too. *)
Theorem decrement_frame st dish eng :
  match decrement dish eng st with
  | Returned (_, st', _) =>
      same_settings st st' /\
      forall dish', dish' <> dish ->
        dish_locs_ st' !! dish' = dish_locs_ st !! dish'
  | Aborted st' =>
      same_settings st st' /\
      num_tables_ st' = num_tables_ st /\
      num_customers_ st' = num_customers_ st /\
      forall dish', dish' <> dish ->
        dish_locs_ st' !! dish' = dish_locs_ st !! dish'
  end.
Proof.
  unfold decrement, subscript.
  destruct (dish_locs_ st !! dish) as [loc |] eqn:Hsome.
  - destruct (customers loc =? 0).
    + simpl. split; [by repeat split |]. done.
    + destruct (customers loc =? 1).
      * simpl. split; [by repeat split |]. intros dish' Hne.
        by rewrite lookup_delete_ne.
      * destruct (remove_customer eng loc) as [[delta loc'] eng']. simpl.
        split; [by repeat split |]. intros dish' Hne.
        by rewrite lookup_insert_ne.
  - simpl. split; [by repeat split |]. split; [done |]. split; [done |].
    intros dish' Hne. by rewrite lookup_insert_ne.
Qed.

(** X7: [decrement] stops at its assertion exactly when no customer is
    seated for the dish, be the dish absent or present without customers;
    in every other case it returns. *)
Theorem decrement_aborts_iff st dish eng :
  (seated dish st = 0 <-> exists st', decrement dish eng st = Aborted st') /\
  (1 <= seated dish st <->
   exists delta st' eng', decrement dish eng st = Returned (delta, st', eng')).
Proof.
  unfold seated, decrement, subscript.
  assert (Hfin : forall (o : outcome Dish (Z * crp Dish * Engine)) (c : N),
             (c = 0 /\ exists st', o = Aborted st') \/
             (1 <= c /\ exists delta st' eng', o = Returned (delta, st', eng')) ->
             (c = 0 <-> exists st', o = Aborted st') /\
             (1 <= c <-> exists delta st' eng', o = Returned (delta, st', eng'))).
  { intros o c [[Hc [st' ->]] | [Hc (delta & st' & eng' & ->)]].
    - split; split; try lia; eauto.
      intros (? & ? & ? & ?). done.
    - split; split; try lia; eauto.
      intros [? ?]. done. }
  apply Hfin.
  destruct (dish_locs_ st !! dish) as [loc |] eqn:Hsome.
  - destruct (N.eqb_spec (customers loc) 0) as [H0 | Hpos]; [left; eauto |].
    right. split; [lia |].
    destruct (customers loc =? 1); [eauto |].
    destruct (remove_customer eng loc) as [[delta loc'] eng']. eauto.
  - left. simpl. eauto.
Qed.

Lemma decrement_general_consistent st dish eng :
  consistent st -> 2 <= seated dish st ->
  exists delta st' eng',
    decrement dish eng st = Returned (delta, st', eng') /\
    (delta = 0%Z \/ delta = (-1)%Z) /\
    num_customers_ st' + 1 = num_customers_ st /\
    seated dish st' + 1 = seated dish st /\
    Z.of_N (num_tables_ st') = (Z.of_N (num_tables_ st) + delta)%Z /\
    Z.of_N (num_tables_dish dish st')
    = (Z.of_N (num_tables_dish dish st) + delta)%Z /\
    1 <= num_tables_dish dish st'.
Proof.
  intros Hcons.
  unfold seated, num_tables_dish, decrement, subscript.
  destruct (dish_locs_ st !! dish) as [loc |] eqn:Hsome; [| lia].
  intros H2.
  pose proof (cons_dishes st Hcons dish loc Hsome) as [Hok _].
  pose proof (invariants_dish_le st dish loc
                (consistent_invariants st Hcons) Hsome) as [Hle Htle].
  pose proof (cons_range st Hcons) as Hr.
  pose proof (invariants_tables_le st (consistent_invariants st Hcons)) as Htn.
  pose proof (hist_ok_tables_pos loc Hok ltac:(lia)) as Htp.
  destruct (N.eqb_spec (customers loc) 0) as [H0 | _]; [lia |].
  destruct (N.eqb_spec (customers loc) 1) as [H1 | _]; [lia |].
  destruct (remove_customer_ok eng loc) as (Hok' & Hc' & Hdelta);
    [done | done | lia |].
  destruct (remove_customer eng loc) as [[delta loc'] eng']. simpl in *.
  pose proof (hist_ok_tables_pos loc' Hok' ltac:(lia)) as Htp'.
  eexists delta, _, eng'. split; [reflexivity |]. simpl.
  rewrite lookup_insert_eq.
  destruct Hdelta as [[-> Ht'] | [-> Ht']]; simpl;
    rewrite !udecr_pos by lia; repeat split; try lia; auto.
Qed.

(** X8: in a restaurant reached without an [increment] at
    [numCustomers = 2^32 - 1], [decrement] on a dish
    with at least two customers returns [0] or [-1], decrements
    [numCustomers] and the dish's customer count by one, adds the returned
    value to [numTables] and to the dish's table count, and leaves the dish
    in [dishState] with at least one table. *)
Theorem decrement_general st dish eng :
  reachable_nowrap st -> 2 <= seated dish st ->
  exists delta st' eng',
    decrement dish eng st = Returned (delta, st', eng') /\
    (delta = 0%Z \/ delta = (-1)%Z) /\
    num_customers_ st' + 1 = num_customers_ st /\
    seated dish st' + 1 = seated dish st /\
    Z.of_N (num_tables_ st') = (Z.of_N (num_tables_ st) + delta)%Z /\
    Z.of_N (num_tables_dish dish st')
    = (Z.of_N (num_tables_dish dish st) + delta)%Z /\
    1 <= num_tables_dish dish st'.
Proof.
  intros Hreach. apply decrement_general_consistent.
  by apply nowrap_consistent.
Qed.

Lemma increment_counts st dish (p0 : Q) eng :
  num_customers_ (increment dish p0 eng st).1.2 = uincr (num_customers_ st) /\
  seated dish (increment dish p0 eng st).1.2 = uincr (seated dish st) /\
  (num_tables_ (increment dish p0 eng st).1.2 = num_tables_ st \/
   num_tables_ (increment dish p0 eng st).1.2 = uincr (num_tables_ st)).
Proof.
  unfold seated, increment, subscript.
  destruct (dish_locs_ st !! dish) as [loc |] eqn:Hsome.
  - destruct (if negb _ then _ else _) as [[|] eng1].
    + pose proof (share_table_counts (discount_ st) eng1 loc) as [Hsc _].
      destruct (share_table _ eng1 loc) as [loc' eng2]. simpl in *.
      rewrite lookup_insert_eq. auto.
    + simpl. rewrite lookup_insert_eq. auto.
  - simpl. rewrite lookup_insert_eq. auto.
Qed.

Lemma decrement_last_consistent st dish eng :
  consistent st -> seated dish st = 1 ->
  exists st',
    decrement dish eng st = Returned ((-1)%Z, st', eng) /\
    dish_locs_ st' !! dish = None /\
    num_tables_ st' + 1 = num_tables_ st /\
    num_customers_ st' + 1 = num_customers_ st.
Proof.
  intros Hcons. unfold seated, decrement, subscript.
  destruct (dish_locs_ st !! dish) as [loc |] eqn:Hsome; [| done].
  intros Hone.
  pose proof (cons_dishes st Hcons dish loc Hsome) as [Hok _].
  pose proof (invariants_dish_le st dish loc
                (consistent_invariants st Hcons) Hsome) as [Hle Htle].
  pose proof (cons_range st Hcons) as Hr.
  pose proof (invariants_tables_le st (consistent_invariants st Hcons)) as Htn.
  pose proof (hist_ok_tables_pos loc Hok ltac:(lia)) as Htp.
  rewrite Hone. simpl. eexists. split; [reflexivity |]. simpl.
  rewrite lookup_delete_eq, !udecr_pos by lia. repeat split; lia.
Qed.

(** X9: in a restaurant reached without an [increment] at
    [numCustomers = 2^32 - 1] and whose [numCustomers] is below
    [2^32 - 1], [increment] on any dish followed by [decrement] on it
    returns, restores [numCustomers] and the dish's customer count, leaves
    [numTables] within one of its value, and ends in a restaurant that
    satisfies the invariants. *)
Theorem increment_decrement_counts st dish (p0 : Q) eng eng2 :
  reachable_nowrap st -> num_customers_ st < UINT_MAX ->
  exists delta st2 eng3,
    decrement dish eng2 (increment dish p0 eng st).1.2
    = Returned (delta, st2, eng3) /\
    num_customers_ st2 = num_customers_ st /\
    seated dish st2 = seated dish st /\
    num_tables_ st <= num_tables_ st2 + 1 /\
    num_tables_ st2 <= num_tables_ st + 1 /\
    invariants st2.
Proof.
  intros Hreach Hlt.
  pose proof (nowrap_consistent st Hreach) as Hcons.
  pose proof (invariants_tables_le st (consistent_invariants st Hcons)) as Htn.
  pose proof (consistent_increment st dish p0 eng Hcons Hlt) as Hcons1.
  destruct (increment_counts st dish p0 eng) as (Hn1 & Hs1 & Ht1).
  set (st1 := (increment dish p0 eng st).1.2) in *.
  assert (Hsle : seated dish st <= num_customers_ st).
  { unfold seated. destruct (dish_locs_ st !! dish) as [loc |] eqn:Hsome;
      [by eapply consistent_dish_le | lia]. }
  rewrite uincr_small in Hn1, Hs1 by lia.
  assert (Ht1' : num_tables_ st1 = num_tables_ st \/
                 num_tables_ st1 = num_tables_ st + 1)
    by (rewrite uincr_small in Ht1 by lia; done).
  destruct (decide (seated dish st = 0)) as [Hzero | Hpos].
  - destruct (decrement_last_consistent st1 dish eng2 Hcons1)
      as (st2 & Hdec & Hgone & Ht2 & Hn2); [lia |].
    exists (-1)%Z, st2, eng2. split; [done |].
    pose proof (consistent_decrement _ _ _ _ _ _ Hcons1 Hdec) as Hcons2.
    unfold seated at 1. rewrite Hgone.
    repeat (split; [lia |]). by apply consistent_invariants.
  - destruct (decrement_general_consistent st1 dish eng2 Hcons1)
      as (delta & st2 & eng3 & Hdec & Hdelta & Hn2 & Hs2 & Ht2 & _); [lia |].
    exists delta, st2, eng3. split; [done |].
    pose proof (consistent_decrement _ _ _ _ _ _ Hcons1 Hdec) as Hcons2.
    repeat (split; [lia |]). by apply consistent_invariants.
Qed.

(** ** The traversal of the dishes *)

(** The sums of the counts over a traversal. *)
Lemma sum_over_dishes (f : crp_table_manager -> N) st :
  sum_over f (dish_locs_ st) = foldr (fun e acc => f e.2 + acc) 0 (dishes st).
Proof.
  unfold sum_over, dishes. rewrite map_fold_foldr.
  induction (map_to_list (dish_locs_ st)) as [| [i x] l IH]; simpl; [done |].
  by rewrite IH.
Qed.

Lemma dishes_count_le_tables (l : list (Dish * crp_table_manager)) :
  (forall e, e ∈ l -> 1 <= tables e.2) ->
  N.of_nat (length l) <= foldr (fun e acc => tables e.2 + acc) 0 l.
Proof.
  induction l as [| e l IH]; simpl; intros Hall; [lia |].
  pose proof (Hall e ltac:(by left)) as He.
  specialize (IH ltac:(intros e' Hin; apply Hall; by right)). lia.
Qed.

(** X20: in a restaurant reached without an [increment] at
    [numCustomers = 2^32 - 1], [num_customers()]
    is [0] exactly when the traversal is empty and exactly when
    [num_tables()] is [0]; in general the number of dishes traversed is at
    most [num_tables()], which is at most [num_customers()]. *)
Theorem emptiness_agrees st :
  reachable_nowrap st ->
  (num_customers st = 0 <-> dishes st = []) /\
  (num_tables st = 0 <-> num_customers st = 0) /\
  N.of_nat (length (dishes st)) <= num_tables st /\
  num_tables st <= num_customers st.
Proof.
  intros Hreach.
  pose proof (nowrap_consistent st Hreach) as Hcons.
  pose proof (consistent_invariants st Hcons) as Hinv.
  pose proof (invariants_tables_le st Hinv) as Htn.
  assert (Hlen : N.of_nat (length (dishes st)) <= num_tables st).
  { unfold num_tables. rewrite (inv_tables st Hinv). unfold sum_tables.
    rewrite sum_over_dishes. apply dishes_count_le_tables.
    intros [dish loc] Hin. apply elem_of_map_to_list in Hin.
    pose proof (inv_present st Hinv dish loc Hin) as Hc.
    pose proof (inv_occupancy st Hinv dish loc Hin) as [Ht _].
    simpl in *. auto. }
  assert (Hempty : num_customers st = 0 <-> dishes st = []).
  { unfold dishes, num_customers. rewrite map_to_list_empty_iff. split.
    - intros Hz. by apply invariants_empty.
    - intros He. rewrite (inv_customers st Hinv), He.
      apply sum_over_empty. }
  split; [exact Hempty |]. split; [| by split].
  unfold num_tables, num_customers in *. split.
  - intros Hz. apply Hempty. destruct (dishes st); [done |].
    simpl in Hlen. lia.
  - intros Hz. lia.
Qed.


(** [a.swap(b)] twice gives back [a] and [b]. *)
Lemma swap_swap (a b : crp Dish) :
  swap (swap a b).1 (swap a b).2 = (a, b).
Proof. by destruct a, b. Qed.

End MembersProofs.

(** ** The likelihood of small restaurants *)

Lemma seq_limit_Some (u : nat -> R) (l : R) : seq_limit u = Some l -> Un_cv u l.
Proof.
  unfold seq_limit.
  destruct (excluded_middle_informative (exists l0, Un_cv u l0)) as [Hcv | Hno];
    [| done].
  destruct (constructive_indefinite_description _ Hcv) as [l' Hl']. simpl.
  by intros [= <-].
Qed.

(** [lgamma (x + 1) = ln x + lgamma x] for a positive [x] at which
    [lgamma] is finite. *)
Lemma lgamma_succ (x l : R) :
  (0 < x)%R -> lgamma x = Some l -> lgamma (x + 1) = Some (ln x + l)%R.
Proof.
  intros Hx Hl. apply lgamma_cv; [Lra.lra |]. apply gauss_cv_succ; [done |].
  apply seq_limit_Some. revert Hl. unfold lgamma.
  by destruct (excluded_middle_informative (exists k : nat, x = (- INR k)%R)).
Qed.

Lemma fadd_None_r (x : double) : (x + None)%D = None.
Proof. by destruct x. Qed.

Lemma fsub_None_r (x : double) : (x - None)%D = None.
Proof. by destruct x. Qed.

Lemma log_beta_density_nan (x alpha : double) :
  log_beta_density x alpha None = None.
Proof.
  unfold log_beta_density.
  generalize (flog x), (flog (of_R 1 - x)%D), (flgamma (alpha + None)%D),
    (flgamma alpha), (flgamma None).
  intros a b c d e. by destruct (alpha - of_R 1)%D, a.
Qed.

Lemma log_gamma_density_nan (x shape : double) :
  log_gamma_density x shape None = None.
Proof.
  unfold log_gamma_density.
  generalize (flgamma shape), (flog x), (shape - of_R 1)%D.
  intros a b c. simpl. by destruct shape, a, c, b.
Qed.

Section LikelihoodExtras.

Context {Dish : Type} `{Countable Dish}.

Implicit Types (st : crp Dish) (dish : Dish) (eng : Engine).

(** X14: on an empty restaurant without priors, [log_likelihood] returns
    [0], for its own hyperparameters and for every pair proposed. *)
Theorem log_likelihood_empty_no_prior st (d s : Q) :
  has_discount_prior st = false -> has_strength_prior st = false ->
  num_customers_ st = 0 ->
  log_likelihood st = Returned 0%R /\
  log_likelihood_at d s st = Returned 0%R.
Proof.
  intros Hd Hs Hzero.
  assert (Hat : forall d' s', log_likelihood_at d' s' st = Returned 0%R).
  { intros d' s'. unfold log_likelihood_at.
    rewrite (hyperprior_lp_no_prior d' s' st Hd Hs), Hzero.
    destruct (Rle_dec 0 0) as [_ | Hn]; [done | exfalso; Lra.lra]. }
  split; [apply Hat | apply Hat].
Qed.

(** X16: a prior counts as present as soon as its first parameter is a
    number; when the second one is NaN, [log_likelihood] does not return,
    whatever the restaurant and the pair proposed. *)
Theorem half_given_prior_aborts st (d s : Q) :
  (has_discount_prior st = true /\ discount_prior_beta_ st = None) \/
  (has_strength_prior st = true /\ strength_prior_rate_ st = None) ->
  log_likelihood_at d s st = Aborted st /\ log_likelihood st = Aborted st.
Proof.
  intros Hhalf.
  assert (Hat : forall d' s', hyperprior_lp d' s' st = None).
  { intros d' s'. unfold hyperprior_lp.
    destruct Hhalf as [[Hp Hnan] | [Hp Hnan]]; rewrite Hp, Hnan; simpl.
    - rewrite log_beta_density_nan. by destruct (has_strength_prior st).
    - rewrite log_gamma_density_nan. apply fadd_None_r. }
  unfold log_likelihood, log_likelihood_at. by rewrite !Hat.
Qed.

(** X17: on a restaurant with a customer, [log_likelihood(discount,
    strength)] does not return for a negative discount: the call stops at
    an assertion on the priors or at the one of its last [else]. *)
Theorem log_likelihood_negative_discount st (d s : Q) :
  1 <= num_customers_ st -> (d < 0)%Q ->
  log_likelihood_at d s st = Aborted st.
Proof.
  intros Hpos Hneg. unfold log_likelihood_at.
  destruct (hyperprior_lp d s st) as [lp0 |]; [| done].
  destruct (Rle_dec lp0 0); [| done].
  destruct (N.eqb_spec (num_customers_ st) 0) as [Hz | _]; [lia |]. simpl.
  unfold seating_lp.
  assert (Hlt : Qlt_bool 0 d = false) by (apply Qlt_bool_false_iff; lra).
  assert (Heq : Qeq_bool d 0 = false).
  { destruct (Qeq_bool d 0) eqn:Hb; [| done].
    apply Qeq_bool_iff in Hb. lra. }
  by rewrite Hlt, Heq.
Qed.

(** ** The resampling of the hyperparameters *)

Lemma DBL_MIN_range : (0 < DBL_MIN)%Q /\ (DBL_MIN < 1)%Q.
Proof. split; by vm_compute. Qed.

Section Resampling.

Variable sampler : slice_sampler (Dish := Dish).

Lemma resample_strength_returned (lower : Q) (ni : N) st eng st' eng' :
  resample_strength sampler lower ni (st, eng) = Returned (st', eng') ->
  same_seating st st' /\ discount_ st' = discount_ st /\
  (sampler_in_support sampler -> (lower < strength_ st')%Q).
Proof.
  unfold resample_strength.
  destruct (sampler _ _ _ _ _ _ _ _) as [[y e] |] eqn:Hs; [| done].
  intros [= <- <-]. simpl. split; [by repeat split |]. split; [done |].
  intros Hcontract.
  assert (Hpre : forall u, @None Q = Some u -> (lower < u)%Q) by (by intros u).
  by destruct (Hcontract _ _ _ _ _ _ _ _ _ _ Hpre Hs).
Qed.

Lemma resample_discount_returned (ni : N) st eng st' eng' :
  resample_discount sampler ni (st, eng) = Returned (st', eng') ->
  same_seating st st' /\ strength_ st' = strength_ st /\
  (sampler_in_support sampler ->
   (DBL_MIN - 1 < strength_ st)%Q ->
   (DBL_MIN < discount_ st')%Q /\ (discount_ st' < 1)%Q /\
   (DBL_MIN < discount_ st' + strength_ st)%Q).
Proof.
  unfold resample_discount.
  destruct (sampler _ _ _ _ _ _ _ _) as [[y e] |] eqn:Hs; [| done].
  intros [= <- <-]. simpl. split; [by repeat split |]. split; [done |].
  intros Hcontract Hsup. destruct DBL_MIN_range as [Hm0 Hm1].
  destruct (Qlt_bool (strength_ st) 0) eqn:Hneg.
  - apply Qlt_bool_iff in Hneg.
    assert (Hpre : forall u, Some 1%Q = Some u ->
                             (DBL_MIN - strength_ st < u)%Q)
      by (intros u [= <-]; lra).
    destruct (Hcontract _ _ _ _ _ _ _ _ _ _ Hpre Hs) as [Hlo Hhi].
    specialize (Hhi 1%Q eq_refl). repeat split; lra.
  - apply Qlt_bool_false_iff in Hneg.
    assert (Hpre : forall u, Some 1%Q = Some u -> (DBL_MIN < u)%Q)
      by (intros u [= <-]; lra).
    destruct (Hcontract _ _ _ _ _ _ _ _ _ _ Hpre Hs) as [Hlo Hhi].
    specialize (Hhi 1%Q eq_refl). repeat split; lra.
Qed.

Lemma same_seating_trans st1 st2 st3 :
  same_seating st1 st2 -> same_seating st2 st3 -> same_seating st1 st3.
Proof.
  intros (? & ? & ? & ? & ? & ? & ?) (? & ? & ? & ? & ? & ? & ?).
  repeat split; congruence.
Qed.

Lemma same_seating_priors st st' :
  same_seating st st' ->
  has_discount_prior st' = has_discount_prior st /\
  has_strength_prior st' = has_strength_prior st.
Proof.
  intros (_ & _ & _ & Hd & _ & Hs & _).
  unfold has_discount_prior, has_strength_prior. by rewrite Hd, Hs.
Qed.

Lemma resample_round_keeps (ni : N) st o :
  round_keeps sampler st o -> round_keeps sampler st (resample_round sampler ni o).
Proof.
  destruct o as [[st1 eng1] | st1]; [| done].
  intros (Hsame & Hdisc & Hvalid). unfold resample_round.
  destruct (same_seating_priors st st1 Hsame) as [Hpd Hps].
  destruct DBL_MIN_range as [Hm0 Hm1].
  destruct (has_strength_prior st1) eqn:Hsp.
  - destruct (resample_strength sampler _ ni (st1, eng1))
      as [[st2 eng2] |] eqn:Hrs; [| done].
    apply resample_strength_returned in Hrs as (Hsame2 & Hd2 & Hs2).
    destruct (same_seating_priors st1 st2 Hsame2) as [Hpd2 _].
    destruct (has_discount_prior st2) eqn:Hdp.
    + destruct (resample_discount sampler ni (st2, eng2))
        as [[st3 eng3] |] eqn:Hrd; [| done].
      apply resample_discount_returned in Hrd as (Hsame3 & Hs3 & Hd3).
      split; [eauto using same_seating_trans |].
      split; [intros Hno; congruence |].
      intros Hc Hv Hor. destruct (Hvalid Hc Hv Hor) as [(Hv0 & Hv1 & Hvs) _].
      specialize (Hs2 Hc).
      destruct (Hd3 Hc) as (Hlo & Hhi & Hsum); [lra |].
      split; [| left; congruence].
      rewrite Hs3. repeat split; lra.
    + simpl. split; [eauto using same_seating_trans |].
      split; [intros Hno; rewrite Hd2; by apply Hdisc |].
      intros Hc Hv Hor. destruct (Hvalid Hc Hv Hor) as [(Hv0 & Hv1 & Hvs) _].
      specialize (Hs2 Hc). rewrite Hd2.
      split; [| left; congruence]. repeat split; lra.
  - destruct (has_discount_prior st1) eqn:Hdp.
    + destruct (resample_discount sampler ni (st1, eng1))
        as [[st3 eng3] |] eqn:Hrd; [| done].
      apply resample_discount_returned in Hrd as (Hsame3 & Hs3 & Hd3).
      split; [eauto using same_seating_trans |].
      split; [intros Hno; congruence |].
      intros Hc Hv Hor.
      destruct (Hvalid Hc Hv Hor) as [(Hv0 & Hv1 & Hvs) [Hyes | Hsup]];
        [congruence |].
      destruct (Hd3 Hc Hsup) as (Hlo & Hhi & Hsum).
      split; [| right; by rewrite Hs3].
      rewrite Hs3. repeat split; lra.
    + simpl. split; [done |]. split; [done |]. done.
Qed.

Lemma resample_loop_keeps (nloop ni : N) st eng :
  round_keeps sampler st (N.iter nloop (resample_round sampler ni) (Returned (st, eng))).
Proof.
  induction nloop as [| k IH] using N.peano_ind.
  - simpl. split; [by repeat split |]. split; [done |]. done.
  - rewrite N.iter_succ. by apply resample_round_keeps.
Qed.

Lemma resample_returned eng (nloop ni : N) st st' eng' :
  resample_hyperparameters sampler eng nloop ni st = Returned (st', eng') ->
  st' = st \/
  exists st1 eng1,
    round_keeps sampler st (Returned (st1, eng1)) /\
    resample_strength sampler (- discount_ st1)%Q ni (st1, eng1)
    = Returned (st', eng').
Proof.
  unfold resample_hyperparameters.
  destruct (negb _); [done |].
  destruct (num_customers st =? 0); [intros [= <- <-]; by left |].
  pose proof (resample_loop_keeps nloop ni st eng) as Hloop.
  destruct (N.iter nloop _ _) as [[st1 eng1] |]; [| done].
  intros Hfinal. right. by exists st1, eng1.
Qed.

(** X18: when [resample_hyperparameters] returns, the counters,
    [dishState] and the four prior parameters are those of the restaurant
    given, whatever the slice sampler; the discount is unchanged too when
    there is no discount prior (the strength is drawn again by the last
    call even without a strength prior). *)
Theorem resample_keeps_seating eng (nloop ni : N) st st' eng' :
  resample_hyperparameters sampler eng nloop ni st = Returned (st', eng') ->
  same_seating st st' /\
  (has_discount_prior st = false -> discount_ st' = discount_ st).
Proof.
  intros Hres.
  destruct (resample_returned _ _ _ _ _ _ Hres)
    as [-> | (st1 & eng1 & (Hsame & Hdisc & _) & Hfinal)];
    [split; [by repeat split | done] |].
  apply resample_strength_returned in Hfinal as (Hsame2 & Hd2 & _).
  split; [eauto using same_seating_trans |].
  intros Hno. rewrite Hd2. by apply Hdisc.
Qed.

(** X19: with a slice sampler that returns values strictly inside the
    support it is given, a call of [resample_hyperparameters] that returns
    keeps the data-model invariants, among them [0 <= discount < 1] and
    [strength > -discount]; this needs a strength prior, or a strength
    above [DBL_MIN - 1]. *)
Theorem resample_keeps_invariants eng (nloop ni : N) st st' eng' :
  sampler_in_support sampler ->
  invariants st ->
  has_strength_prior st = true \/ (DBL_MIN - 1 < strength_ st)%Q ->
  resample_hyperparameters sampler eng nloop ni st = Returned (st', eng') ->
  invariants st'.
Proof.
  intros Hc Hinv Hor Hres.
  destruct (resample_returned _ _ _ _ _ _ Hres)
    as [-> | (st1 & eng1 & (Hsame & _ & Hvalid) & Hfinal)]; [done |].
  destruct (inv_discount st Hinv) as [Hd0 Hd1].
  pose proof (inv_strength st Hinv) as Hs.
  destruct (Hvalid Hc ltac:(by repeat split) Hor) as [(Hv0 & Hv1 & Hvs) _].
  apply resample_strength_returned in Hfinal as (Hsame2 & Hd2 & Hs2).
  specialize (Hs2 Hc).
  destruct (same_seating_trans _ _ _ Hsame Hsame2)
    as (Ht & Hn & Hl & _).
  destruct Hinv as [Hic Hit _ _ Hip Hio].
  split; rewrite ?Hn, ?Ht, ?Hl, ?Hd2; done.
Qed.

End Resampling.

End LikelihoodExtras.

(** ** Examples of the further properties *)

Lemma one_table_two_reachable : reachable_in 2 (one_table 2).
Proof. apply (one_table_reachable 1). by vm_compute. Qed.

Lemma one_table_two_nowrap : reachable_nowrap (one_table 2).
Proof.
  apply (reachable_in_nowrap 2); [apply one_table_two_reachable |].
  by vm_compute.
Qed.

Lemma one_table_two_invariants : invariants (one_table 2).
Proof.
  apply (reachable_invariants 2); [apply one_table_two_reachable |].
  by vm_compute.
Qed.

Lemma fresh_dp_invariants : invariants fresh_dp.
Proof.
  apply (reachable_invariants 0); [by apply (reach_new 0 1) | by vm_compute].
Qed.

Lemma inside_sampler_in_support : sampler_in_support inside_sampler.
Proof.
  intros f x eng lower upper w n m y eng' Hsup. unfold inside_sampler.
  destruct upper as [u |]; intros [= <- <-].
  - specialize (Hsup u eq_refl). split.
    + apply Qlt_shift_div_l; lra.
    + intros u' [= <-]. apply Qlt_shift_div_r; lra.
  - split; [lra | by intros u].
Qed.

Lemma default_one_customer_invariants : invariants default_one_customer.
Proof.
  apply (reachable_invariants 1); [| by vm_compute].
  apply (reach_increment 0).
  by apply (reach_new_priors (Some 1%Q) (Some 1%Q) (Some 1%Q) (Some 1%Q)
              (4 # 5) 1).
Qed.

(** X3, witness: [clear] on the restaurant whose customer counter has
    wrapped around. *)
Lemma clear_restores_invariants_witness :
  valid_hyperparameters (discount_ (one_table 0)) (strength_ (one_table 0)) /\
  invariants (clear (one_table 0)).
Proof.
  assert (Hvalid : valid_hyperparameters (discount_ (one_table 0))
                     (strength_ (one_table 0)))
    by (repeat split; by vm_compute).
  split; [exact Hvalid |].
  exact (proj1 (clear_restores_invariants (one_table 0) Hvalid)).
Defined.

(** X4, witness: dish [0] with two customers at one table. *)
Lemma num_tables_dish_bounds_witness :
  invariants (one_table 2) /\
  num_tables_dish 0 (one_table 2) <= num_tables (one_table 2).
Proof.
  split; [exact one_table_two_invariants |].
  exact (proj1 (num_tables_dish_bounds (one_table 2) 0
                  one_table_two_invariants)).
Defined.

(** X8, witness: one of the two customers of dish [0] leaves. *)
Lemma decrement_general_witness :
  reachable_nowrap (one_table 2) /\
  2 <= seated 0 (one_table 2) /\
  exists delta st' eng',
    decrement 0 [] (one_table 2) = Returned (delta, st', eng') /\
    (delta = 0%Z \/ delta = (-1)%Z) /\
    num_customers_ st' + 1 = num_customers_ (one_table 2).
Proof.
  assert (Hs : 2 <= seated 0 (one_table 2)) by (vm_compute; discriminate).
  split; [exact one_table_two_nowrap |]. split; [exact Hs |].
  destruct (decrement_general (one_table 2) 0 [] one_table_two_nowrap Hs)
    as (delta & st' & eng' & Hdec & Hdelta & Hn & _).
  exists delta, st', eng'. by repeat split.
Defined.

(** X9, witness: a third customer of dish [0] comes and a customer of the
    dish leaves. *)
Lemma increment_decrement_counts_witness :
  reachable_nowrap (one_table 2) /\ num_customers_ (one_table 2) < UINT_MAX /\
  exists delta st2 eng3,
    decrement 0 [] (increment 0 1 [] (one_table 2)).1.2
    = Returned (delta, st2, eng3) /\
    num_customers_ st2 = num_customers_ (one_table 2) /\
    seated 0 st2 = seated 0 (one_table 2).
Proof.
  assert (Hlt : num_customers_ (one_table 2) < UINT_MAX) by reflexivity.
  split; [exact one_table_two_nowrap |]. split; [exact Hlt |].
  destruct (increment_decrement_counts (one_table 2) 0 1 [] []
              one_table_two_nowrap Hlt)
    as (delta & st2 & eng3 & Hdec & Hn & Hs & _).
  exists delta, st2, eng3. by repeat split.
Defined.

(** X22, witness: dish [0] seated twice, with [p0] growing from [1/3] to
    [1/2] and the results rounded down to multiples of [1/1024]. *)
Lemma prob_monotone_witness :
  rounding coarse_rounding /\ invariants (one_table 2) /\ (1 # 3 <= 1 # 2)%Q /\
  exists w w',
    prob coarse_rounding 0 (1 # 3) (one_table 2) = Some w /\
    prob coarse_rounding 0 (1 # 2) (one_table 2) = Some w' /\
    (w <= w')%Q.
Proof.
  assert (Hle : (1 # 3 <= 1 # 2)%Q) by (vm_compute; discriminate).
  assert (Hmax : num_customers_ (one_table 2) <= UINT_MAX)
    by (vm_compute; discriminate).
  assert (Hnz : num_customers_ (one_table 2) = 0 ->
                ~ (strength_ (one_table 2) == 0)%Q)
    by (intros Hz; vm_compute in Hz; discriminate).
  split; [exact coarse_rounding_rounding |].
  split; [exact one_table_two_invariants |]. split; [exact Hle |].
  exact (prob_monotone coarse_rounding (one_table 2) 0 (1 # 3) (1 # 2)
           coarse_rounding_rounding eq_refl eq_refl one_table_two_invariants
           Hmax Hnz Hle).
Defined.

(** X23, witness: dish [1], not seated in the restaurant of dish [0]. *)
Lemma prob_unseen_zero_witness :
  rounding coarse_rounding /\ invariants (one_table 2) /\
  dish_locs_ (one_table 2) !! 1 = None /\
  exists w, prob coarse_rounding 1 0 (one_table 2) = Some w /\ (w == 0)%Q.
Proof.
  assert (Hmax : num_customers_ (one_table 2) <= UINT_MAX)
    by (vm_compute; discriminate).
  assert (Hnz : num_customers_ (one_table 2) = 0 ->
                ~ (strength_ (one_table 2) == 0)%Q)
    by (intros Hz; vm_compute in Hz; discriminate).
  assert (Hnone : dish_locs_ (one_table 2) !! 1 = None) by reflexivity.
  split; [exact coarse_rounding_rounding |].
  split; [exact one_table_two_invariants |]. split; [exact Hnone |].
  exact (prob_unseen_zero coarse_rounding (one_table 2) 1
           coarse_rounding_rounding eq_refl eq_refl one_table_two_invariants
           Hmax Hnz Hnone).
Defined.

(** X14, witness: the empty [crp(0.0, 1.0)]. *)
Lemma log_likelihood_empty_no_prior_witness :
  log_likelihood fresh_dp = Returned 0%R /\
  log_likelihood_at (1 # 2) 3 fresh_dp = Returned 0%R.
Proof.
  exact (log_likelihood_empty_no_prior fresh_dp (1 # 2) 3
           eq_refl eq_refl eq_refl).
Defined.

(** X16, witness: [crp(1, NaN, NaN, NaN)]. *)
Lemma half_given_prior_aborts_witness :
  crp_new_priors (Some 1%Q) None None None (4 # 5) 1
  = Returned fresh_half_prior /\
  log_likelihood fresh_half_prior = Aborted fresh_half_prior.
Proof.
  split; [reflexivity |].
  exact (proj2 (half_given_prior_aborts fresh_half_prior 0 0
                  (or_introl (conj eq_refl eq_refl)))).
Defined.

(** X17, witness: the discount [-1] proposed to a restaurant with two
    customers. *)
Lemma log_likelihood_negative_discount_witness :
  1 <= num_customers_ (one_table 2) /\ (-1 < 0)%Q /\
  log_likelihood_at (-1) 1 (one_table 2) = Aborted (one_table 2).
Proof.
  assert (Hpos : 1 <= num_customers_ (one_table 2))
    by (vm_compute; discriminate).
  assert (Hneg : (-1 < 0)%Q) by reflexivity.
  split; [exact Hpos |]. split; [exact Hneg |].
  exact (log_likelihood_negative_discount (one_table 2) (-1) 1 Hpos Hneg).
Defined.

Lemma inside_sampler_returns :
  exists st' eng',
    resample_hyperparameters inside_sampler [] 5 10 default_one_customer
    = Returned (st', eng').
Proof. eexists _, _. by vm_compute. Qed.

(** X18, witness: [crp(1, 1, 1, 1)] with one customer, resampled. *)
Lemma resample_keeps_seating_witness :
  exists st' eng',
    resample_hyperparameters inside_sampler [] 5 10 default_one_customer
    = Returned (st', eng') /\
    same_seating default_one_customer st'.
Proof.
  destruct inside_sampler_returns as (st' & eng' & Hres).
  exists st', eng'. split; [exact Hres |].
  exact (proj1 (resample_keeps_seating inside_sampler [] 5 10
                  default_one_customer st' eng' Hres)).
Defined.

(** X19, witness: [crp(1, 1, 1, 1)] with one customer, resampled. *)
Lemma resample_keeps_invariants_witness :
  sampler_in_support inside_sampler /\
  invariants default_one_customer /\
  exists st' eng',
    resample_hyperparameters inside_sampler [] 5 10 default_one_customer
    = Returned (st', eng') /\
    invariants st'.
Proof.
  split; [exact inside_sampler_in_support |].
  split; [exact default_one_customer_invariants |].
  destruct inside_sampler_returns as (st' & eng' & Hres).
  exists st', eng'. split; [exact Hres |].
  exact (resample_keeps_invariants inside_sampler [] 5 10
           default_one_customer st' eng' inside_sampler_in_support
           default_one_customer_invariants (or_introl eq_refl) Hres).
Defined.

(** X20, witness: the restaurant with one dish and two customers. *)
Lemma emptiness_agrees_witness :
  reachable_nowrap (one_table 2) /\
  N.of_nat (length (dishes (one_table 2))) <= num_tables (one_table 2) /\
  num_tables (one_table 2) <= num_customers (one_table 2).
Proof.
  split; [exact one_table_two_nowrap |].
  destruct (emptiness_agrees (one_table 2) one_table_two_nowrap)
    as (_ & _ & Hlen & Htn).
  by split.
Defined.
